(** * functime.evaluation: residual diagnostics and entity rankings

    A shallow embedding of [src/functime/evaluation.py].

    Modelling conventions.
    - A float column is a list of exact rationals ([Q]); casts between
      Float32 and Float64 are therefore the identity, and infinities and
      rounding are outside the model.  Theorems about numbers are stated
      up to [==] (equality of fractions).
    - [acf] is modelled where every autocorrelation is a number.  In
      [ljung_box_test] an autocorrelation can also be NaN or null, and the
      cells of the result are numbers, NaN or null ([cell]); the length
      column there is an unsigned 32-bit integer, whose arithmetic wraps.
    - A panel is a three-column frame [(entity, time, value)]; the entity
      key is a string, the time stamp an integer.
    - A raising call is a value [Err e]; [;;] sequences calls and lets the
      first error escape, as an uncaught Python exception does.
    - The numeric primitives of the table engine and of the statistics
      library (correlation, square root, normal quantile, normality
      statistic), and the metric functions of [functime.metrics], are
      section variables: their code is not part of this module. *)

From Stdlib Require Import List String ZArith QArith Qabs Lia Lqa Permutation Sorted Bool.
Import ListNotations.

Local Open Scope string_scope.
Local Open Scope list_scope.
Local Open Scope Q_scope.

(** ** Exceptions and the error monad *)

Inductive exn : Type :=
| TypeError (msg : string)
| KeyError (key : string)
| AttributeError (attr : string)
| ColumnNotFoundError (col : string)
| DuplicateError (col : string)
| ShapeError
| SchemaMismatch
| InsufficientSamples
| InvalidParameter
| ComputeError.

Inductive result (A : Type) : Type :=
| Ok (a : A)
| Err (e : exn).

Arguments Ok {A} a.
Arguments Err {A} e.

Definition bind {A B : Type} (r : result A) (k : A -> result B) : result B :=
  match r with
  | Ok a => k a
  | Err e => Err e
  end.

Notation "x <- c ;; k" := (bind c (fun x => k))
  (at level 61, c at next level, right associativity).

(** [mapM f l] runs [f] on the elements from left to right and stops at the
    first error. *)
Fixpoint mapM {A B : Type} (f : A -> result B) (l : list A) : result (list B) :=
  match l with
  | [] => Ok []
  | a :: t => b <- f a ;; bs <- mapM f t ;; Ok (b :: bs)
  end.

(** ** Frames *)

(** The entity key of a row. *)
#[warnings="-notation-for-abbreviation"]
Notation entity := string (only parsing).

(** A panel: the three column names, in order, and the rows. *)
Record Panel : Type := mkPanel {
  columns : string * string * string;
  rows : list (entity * Z * Q)
}.

(** A two-column frame: an entity column and one numeric column. *)
Record Frame2 : Type := mkFrame2 {
  key_col : string;
  val_col : string;
  data : list (entity * Q)
}.

(** An object handed to a function that expects a frame. *)
Inductive pyobj : Type :=
| ObjFrame (p : Panel)
| ObjSeries (s : list Q)
| ObjDict (d : list (string * Q)).

(** The entity and value columns of a panel, row by row. *)
Definition values (p : Panel) : list (entity * Q) :=
  map (fun r => (fst (fst r), snd r)) (rows p).

(** *** groupby

    Groups are listed in order of first appearance and each group keeps
    the row order of the frame. (The engine leaves the order of the groups
    unspecified; no statement below depends on it.) *)

Fixpoint group_add {A : Type} (e : entity) (a : A) (gs : list (entity * list A))
  : list (entity * list A) :=
  match gs with
  | [] => [(e, [a])]
  | (e', l) :: t =>
      if String.eqb e e' then (e', l ++ [a]) :: t
      else (e', l) :: group_add e a t
  end.

Definition groupby {A : Type} (rs : list (entity * A)) : list (entity * list A) :=
  fold_left (fun gs r => group_add (fst r) (snd r) gs) rs [].

(** The cells of the rows of entity [e], in the order of the frame: the
    window of [e] in an [over(entity_col)] expression, and its group. *)
Definition window {A : Type} (e : entity) (rs : list (entity * A)) : list A :=
  map snd (filter (fun r => String.eqb (fst r) e) rs).

(** The list stored under key [e] in a list of groups, empty when there is
    none. *)
Fixpoint group_of {A : Type} (e : entity) (gs : list (entity * list A)) : list A :=
  match gs with
  | [] => []
  | (e', l) :: t => if String.eqb e e' then l else group_of e t
  end.

(** [explode]: one row per element of the list-valued column; the other
    columns are repeated. *)
Definition explode {A B : Type} (f : list (entity * (list A * B)))
  : list (entity * (A * B)) :=
  flat_map (fun g => map (fun a => (fst g, (a, snd (snd g)))) (fst (snd g))) f.

(** [slice offset length] *)
Definition slice {A : Type} (offset length : nat) (l : list A) : list A :=
  firstn length (skipn offset l).

(** *** sort *)

Fixpoint insert_by {A : Type} (le : A -> A -> bool) (a : A) (l : list A) : list A :=
  match l with
  | [] => [a]
  | b :: t => if le a b then a :: l else b :: insert_by le a t
  end.

Definition sort_rows {A : Type} (le : A -> A -> bool) (l : list A) : list A :=
  fold_right (insert_by le) [] l.

Definition Qorder (descending : bool) (a b : Q) : bool :=
  if descending then Qle_bool b a else Qle_bool a b.

Definition str_order (descending : bool) (a b : string) : bool :=
  if descending then String.leb b a else String.leb a b.

(** Nulls sort first in ascending order and last in descending order. *)
Definition null_order (descending : bool) (a b : option Q) : bool :=
  match a, b with
  | None, None => true
  | None, Some _ => negb descending
  | Some _, None => descending
  | Some x, Some y => Qorder descending x y
  end.

(** [frame.sort(by, descending)] on a two-column frame. *)
Definition frame_sort (f : Frame2) (by_col : string) (descending : bool)
  : result Frame2 :=
  if String.eqb by_col (val_col f) then
    Ok (mkFrame2 (key_col f) (val_col f)
          (sort_rows (fun a b => Qorder descending (snd a) (snd b)) (data f)))
  else if String.eqb by_col (key_col f) then
    Ok (mkFrame2 (key_col f) (val_col f)
          (sort_rows (fun a b => str_order descending (fst a) (fst b)) (data f)))
  else Err (ColumnNotFoundError by_col).

(** [frame.select([c1, c2])] where [c1] is the key column of [f]. *)
Definition frame_select (f : Frame2) (c1 c2 : string) : result Frame2 :=
  if String.eqb c1 c2 then Err (DuplicateError c2)
  else if String.eqb c2 (val_col f) then Ok f
  else Err (ColumnNotFoundError c2).

(** ** Column arithmetic *)

Definition Qsum (l : list Q) : Q := fold_right Qplus 0 l.

(** [x.len()] *)
Definition len {A : Type} (x : list A) : Q := inject_Z (Z.of_nat (List.length x)).

Definition of_nat (k : nat) : Q := inject_Z (Z.of_nat k).

(** [x.mean()] *)
Definition mean (x : list Q) : Q := Qsum x / len x.

(** [x.cumsum()]: the running sum, the current element included. *)
Fixpoint cumsum_from (acc : Q) (l : list Q) : list Q :=
  match l with
  | [] => []
  | a :: t => (acc + a) :: cumsum_from (acc + a) t
  end.

Definition cumsum (l : list Q) : list Q := cumsum_from 0 l.

(** *** Cells that can be missing *)

(** A float cell of the engine: a number, NaN, or null. *)
Inductive cell : Type :=
| Num (q : Q)
| NaN
| Null.

(** An arithmetic step with numbers on the other side ([x ** 2], [x / d],
    [w * x]): NaN and null pass through. *)
Definition cell_map (f : Q -> Q) (c : cell) : cell :=
  match c with
  | Num q => Num (f q)
  | NaN => NaN
  | Null => Null
  end.

(** The running sum [acc] and the next cell. *)
Definition cell_add (acc c : cell) : cell :=
  match acc, c with
  | Num a, Num b => Num (a + b)
  | Null, _ | _, Null => Null
  | _, _ => NaN
  end.

(** [x.cumsum()] on cells: a null cell stays null and leaves the running
    sum as it is; after a NaN every sum is NaN. *)
Fixpoint cumsum_cells_from (acc : cell) (l : list cell) : list cell :=
  match l with
  | [] => []
  | Null :: t => Null :: cumsum_cells_from acc t
  | c :: t => cell_add acc c :: cumsum_cells_from (cell_add acc c) t
  end.

Definition cumsum_cells (l : list cell) : list cell := cumsum_cells_from (Num 0) l.

(** Sum, difference and product of unsigned 32-bit integers: the result
    wraps. *)
Definition u32_add (a b : Z) : Z := ((a + b) mod 2 ^ 32)%Z.
Definition u32_sub (a b : Z) : Z := ((a - b) mod 2 ^ 32)%Z.
Definition u32_mul (a b : Z) : Z := ((a * b) mod 2 ^ 32)%Z.

(** What [pl.corr] can give: a number, NaN, or null. *)
Inductive corr_kind : Type :=
| IsNum
| IsNaN
| IsNull.

(** [x.shift(i)]: the values move down by [i] rows, nulls fill the top, the
    length is unchanged. *)
Definition shift (i : nat) (x : list Q) : list (option Q) :=
  firstn (List.length x) (repeat None i ++ map Some x).

(** [x.median()] *)
Definition median (x : list Q) : Q :=
  let s := sort_rows Qle_bool x in
  let n := List.length s in
  if Nat.even n then (nth (n / 2 - 1)%nat s 0 + nth (n / 2)%nat s 0) / 2
  else nth (n / 2)%nat s 0.

(** *** Python objects and calls *)

(** [d[k]]: a missing key raises [KeyError]. *)
Fixpoint dict_get {V : Type} (d : list (string * V)) (k : string) : result V :=
  match d with
  | [] => Err (KeyError k)
  | (k', v) :: t => if String.eqb k k' then Ok v else dict_get t k
  end.

(** [d(arg)]: a dict is not callable. *)
Definition call_dict {V R : Type} (d : list (string * V)) (arg : string) : result R :=
  Err (TypeError "dict object is not callable").

(** Argument values of the keyword calls inside the module. *)
Inductive pyval : Type :=
| VFrame (p : Panel)
| VStr (s : string)
| VBool (b : bool).

Fixpoint kw_get (kwargs : list (string * pyval)) (name : string) : option pyval :=
  match kwargs with
  | [] => None
  | (k, v) :: t => if String.eqb name k then Some v else kw_get t name
  end.

(** Binding keyword arguments to the parameters of a [def]: a keyword that
    names no parameter is a [TypeError], and so is a parameter (none of the
    callee's has a default) left without a value. *)
Definition bind_keywords (params : list string) (kwargs : list (string * pyval))
  : result unit :=
  match find (fun kv => negb (existsb (String.eqb (fst kv)) params)) kwargs with
  | Some kv => Err (TypeError (String.append "unexpected keyword argument " (fst kv)))
  | None =>
      match find (fun p => match kw_get kwargs p with None => true | Some _ => false end)
                 params with
      | Some p => Err (TypeError (String.append "missing required argument " p))
      | None => Ok tt
      end
  end.

(** *** join *)

(** [l.join(r, how=left)] on the entity column: every row of [l], once per
    matching row of [r], or once with a null when there is none. *)
Definition left_join (l r : list (entity * Q)) : list (entity * Q * option Q) :=
  flat_map (fun a =>
    match filter (fun b => String.eqb (fst b) (fst a)) r with
    | [] => [(fst a, snd a, None)]
    | ms => map (fun b => (fst a, snd a, Some (snd b))) ms
    end) l.

(** A metric: [(y_true, y_pred) -> one score per entity]. *)
Definition METRIC_TYPE : Type := Panel -> pyobj -> result Frame2.

(** One entity of the result of [acf]. *)
Record ACFRow : Type := mkACFRow {
  acf_values : list Q;
  confint_lower : list Q;
  confint_upper : list Q
}.

(** One entity of the result of [rank_fva]. *)
Record UpliftRow : Type := mkUpliftRow {
  fva_entity : entity;
  uplift : option Q;
  has_uplift : option bool
}.

Definition Qlt_bool (a b : Q) : bool := negb (Qle_bool b a).

Section Evaluation.

(** [pl.corr(x, y, ddof)] on one group; [y] carries the nulls of a shift. *)
Variable pl_corr : list Q -> list (option Q) -> nat -> Q.
(** Whether [pl.corr(x, y, ddof)] is a number, NaN (a window without
    variance) or null (too few pairs for the [ddof]); [pl_corr] is its
    value when it is a number. *)
Variable pl_corr_kind : list Q -> list (option Q) -> nat -> corr_kind.
(** [Expr.sqrt] *)
Variable pl_sqrt : Q -> Q.
(** [scipy.stats.norm.ppf] *)
Variable norm_ppf : Q -> Q.
(** [scipy.stats.normaltest(values)[0]], which raises on a short sample. *)
Variable normaltest : list Q -> result Q.
(** The metrics of [functime.metrics]. *)
Variables mae mape mse overforecast rmse underforecast : METRIC_TYPE.
Variables mase rmsse : Panel -> METRIC_TYPE.
(** The per-entity symmetric MAPE of two panels. *)
Variable smape_score : Panel -> Panel -> Frame2.

(** Modelled from the spec: [functime.metrics.smape] is not among the
    sources.  The spec gives a metric the contract
    [metric(y_true: Panel, y_pred: Panel) -> Panel(entity_id, score)] and
    names [SchemaMismatch] the failure for an input that has not the
    three-column panel shape; the score itself is [smape_score]. *)
Definition smape : METRIC_TYPE :=
  fun y_true y_pred =>
    match y_pred with
    | ObjFrame p => Ok (smape_score y_true p)
    | ObjSeries _ | ObjDict _ => Err SchemaMismatch
    end.

Definition SORT_BY_TO_METRIC (y_train : Panel) : list (string * METRIC_TYPE) :=
  [ ("mae", mae);
    ("mape", mape);
    ("mase", mase y_train);
    ("mse", mse);
    ("overforecast", overforecast);
    ("rmse", rmse);
    ("rmsse", rmsse y_train);
    ("smape", smape);
    ("underforecast", underforecast) ].

(** ** ACF *)

Definition acf_formula (x : list Q) (max_lags : nat) : list Q * Q :=
  let n := len x in
  let acf := map (fun i => pl_corr x (shift i x) i) (seq 1 max_lags) in
  (1 :: acf, n).

(** The column [var] of [acf_confint_formula]. *)
Definition var_acf (acf : list Q) : list Q :=
  map (fun c => 1 + 2 * c) (cumsum (map (fun a => a ^ 2) acf)).

Definition acf_confint_formula (acf length : list Q) (ppf : Q) : list Q :=
  map (fun lv => ppf * pl_sqrt ((1 / fst lv) * snd lv)) (combine length (var_acf acf)).

(** [(col - col.mean()).over(entity_col)]: every value minus the mean of the
    rows of its entity. *)
Definition demean_over (rs : list (entity * Q)) : list (entity * Q) :=
  map (fun r => (fst r, snd r - mean (window (fst r) rs))) rs.

(** The list column [interval] that [acf] builds for one entity from the
    exploded columns [acf] and [length]:
    [concat_list(interval_0, interval_1, interval)]. *)
Definition interval_column (ppf : Q) (max_lags : nat) (acf length : list Q) : list Q :=
  let interval_0 := 0 in
  let interval_1 := ppf * pl_sqrt (1 / hd 0 length) in
  let interval := slice 1 (max_lags - 1) (acf_confint_formula acf length ppf) in
  interval_0 :: interval_1 :: interval.

(** [explode([acf, interval])] needs lists of one length; they have one
    length exactly when [1 <= max_lags]. *)
Definition explode2 (e : entity) (acf interval : list Q) : result (list (entity * (Q * Q))) :=
  if Nat.eqb (List.length acf) (List.length interval)
  then Ok (map (fun ai => (e, ai)) (combine acf interval))
  else Err ShapeError.

Definition acf (X : Panel) (max_lags : nat) (alpha : Q)
  : result (list (entity * ACFRow)) :=
  let ppf := norm_ppf (1 - alpha / 2) in
  let demeaned := demean_over (values X) in
  let agg1 := map (fun g => (fst g, acf_formula (snd g) max_lags)) (groupby demeaned) in
  let agg2 :=
    map (fun g =>
           let acf := map fst (snd g) in
           let length := map snd (snd g) in
           (fst g, (acf, interval_column ppf max_lags acf length)))
        (groupby (explode agg1)) in
  exploded <- mapM (fun g => explode2 (fst g) (fst (snd g)) (snd (snd g))) agg2 ;;
  Ok (map (fun g =>
             let acf := map fst (snd g) in
             let interval := map snd (snd g) in
             (fst g,
              mkACFRow acf
                (map (fun ai => fst ai - snd ai) (combine acf interval))
                (map (fun ai => fst ai + snd ai) (combine acf interval))))
          (groupby (List.concat exploded))).

(** ** Ljung-Box

    [max_lags] is a natural number here.  With [max_lags = 0] the selector
    [cs.starts_with(acorr_)] matches no column; what the engine then does
    is not decided by this module, and every statement below takes
    [1 <= max_lags]. *)

(** The cell [pl.corr(x, y, ddof)]. *)
Definition corr_cell (x : list Q) (y : list (option Q)) (ddof : nat) : cell :=
  match pl_corr_kind x y ddof with
  | IsNum => Num (pl_corr x y ddof)
  | IsNaN => NaN
  | IsNull => Null
  end.

(** [n = x.len()] is an unsigned 32-bit integer, and so is [n - k].  The
    division is the one of the rationals; a float division by zero is
    outside the model, and the statements about the value of a cell take
    the lag below the length of the series. *)
Definition _acf_sqr_ratio (max_lags : nat) (x : list Q) : list cell * Z :=
  let n := Z.of_nat (List.length x) in
  let acf := map (fun i => corr_cell x (shift i x) i) (seq 1 max_lags) in
  let acf_sqr := map (cell_map (fun a => a ^ 2)) acf in
  let acf_sqr_ratio :=
    map (fun ak => cell_map (fun a => a / inject_Z (u32_sub n (Z.of_nat (snd ak)))) (fst ak))
        (combine acf_sqr (seq 1 max_lags)) in
  (acf_sqr_ratio, n).

(** [length * (length + 2)] is computed on the unsigned 32-bit length
    column, before the product with the float column. *)
Definition _qstat_ljung_box (acf : list cell) (length : list Z) : list cell :=
  map (fun lc =>
         cell_map (fun c => inject_Z (u32_mul (fst lc) (u32_add (fst lc) 2)) * c) (snd lc))
      (combine length (cumsum_cells acf)).

Definition ljung_box_test (X : Panel) (max_lags : nat) : list (entity * list cell) :=
  let agg1 := map (fun g => (fst g, _acf_sqr_ratio max_lags (snd g))) (groupby (values X)) in
  map (fun g => (fst g, _qstat_ljung_box (map fst (snd g)) (map snd (snd g))))
      (groupby (explode agg1)).

(** ** Normality *)

(** [X.columns] exists on a frame only.  On a frame with no rows [apply]
    never calls the function, and the engine, which is given no type for
    the result, raises [ComputeError]. *)
Definition normality_test (X : pyobj) : result Frame2 :=
  match X with
  | ObjFrame p =>
      let '(entity_col, _, target_col) := columns p in
      match groupby (values p) with
      | [] => Err ComputeError
      | g :: groups =>
          d <- mapM (fun g => s <- normaltest (snd g) ;; Ok (fst g, s)) (g :: groups) ;;
          Ok (mkFrame2 entity_col target_col d)
      end
  | ObjSeries _ | ObjDict _ => Err (AttributeError "columns")
  end.

(** ** Ranking *)

(** [x.std()], with the engine's default [ddof = 1]. *)
Definition std (x : list Q) : Q :=
  pl_sqrt (Qsum (map (fun v => (v - mean x) ^ 2) x) / (len x - 1)).

(** [getattr(pl, sort_by)] for the names [_rank_entities] sends here;
    [cv] is not a function of the engine. *)
Definition pl_getattr (name : string) : result (list Q -> Q) :=
  if String.eqb name "mean" then Ok mean
  else if String.eqb name "median" then Ok median
  else if String.eqb name "std" then Ok std
  else Err (AttributeError name).

(** The aggregate [pl.mean(target_col)] keeps the name of its column, so the
    frame that is sorted has the columns [entity_col, target_col]. *)
Definition _rank_entities_by_stat (y_true : Panel) (sort_by : string) (descending : bool)
  : result Frame2 :=
  let '(entity_col, _, target_col) := columns y_true in
  stat <- pl_getattr sort_by ;;
  let agg :=
    mkFrame2 entity_col target_col
      (map (fun g => (fst g, stat (snd g))) (groupby (values y_true))) in
  sorted <- frame_sort agg sort_by descending ;;
  frame_select sorted entity_col sort_by.

Definition _rank_entities_by_score (y_true y_pred : Panel) (sort_by : string)
  (descending : bool) : result Frame2 :=
  scoring <- call_dict (R := METRIC_TYPE) (SORT_BY_TO_METRIC y_true) sort_by ;;
  scores <- scoring y_true (ObjFrame y_pred) ;;
  sorted <- frame_sort scores sort_by descending ;;
  frame_select sorted (fst (fst (columns y_true))) sort_by.

Definition _rank_entities (y_pred y_true : Panel) (sort_by : string) (descending : bool)
  : result Frame2 :=
  if existsb (String.eqb sort_by) ["mean"; "median"; "std"; "cv"] then
    _rank_entities_by_stat y_true sort_by descending
  else
    _rank_entities_by_score y_true y_pred sort_by descending.

(** [_rank_entities] entered through a call that passes every argument by
    keyword. *)
Definition _rank_entities_kw (kwargs : list (string * pyval)) : result Frame2 :=
  _ <- bind_keywords ["y_pred"; "y_true"; "sort_by"; "descending"] kwargs ;;
  match kw_get kwargs "y_pred", kw_get kwargs "y_true",
        kw_get kwargs "sort_by", kw_get kwargs "descending" with
  | Some (VFrame y_pred), Some (VFrame y_true), Some (VStr sort_by), Some (VBool descending) =>
      _rank_entities y_pred y_true sort_by descending
  | _, _, _, _ => Err (TypeError "argument of an unexpected type")
  end.

Definition rank_forecasts (y_pred y_true : Panel) (descending : bool) (sort_by : string)
  : result Frame2 :=
  _rank_entities_kw
    [ ("y", VFrame y_true); ("y_pred", VFrame y_pred);
      ("sort_by", VStr sort_by); ("descending", VBool descending) ].

(** The dict [sort_by_to_expr] of [rank_residuals]: each expression, as the
    aggregate it computes on the residuals of one entity.  [apply] hands the
    group to [normality_test] as a series. *)
Definition sort_by_to_expr : list (string * (list Q -> result Q)) :=
  [ ("bias", fun s => Ok (Qabs (mean s)));
    ("abs_bias", fun s => Ok (Qabs (mean s)));
    ("normality", fun s =>
       _ <- normality_test (ObjSeries s) ;;
       Err (TypeError "apply: the result is not a scalar")) ].

Definition rank_residuals (y_resids : Panel) (sort_by : string) (max_lags : nat) (alpha : Q)
  : result Frame2 :=
  let '(entity_col, _, target_col) := columns y_resids in
  expr <- dict_get sort_by_to_expr sort_by ;;
  d <- mapM (fun g => v <- expr (snd g) ;; Ok (fst g, v)) (groupby (values y_resids)) ;;
  agg <- (if String.eqb entity_col sort_by then Err (DuplicateError sort_by)
          else Ok (mkFrame2 entity_col sort_by d)) ;;
  frame_sort agg sort_by false.

(** The two score tables are two-column frames [(entity, score)]; the join
    is on the entity column and the names of the columns play no part in
    the model.  A null benchmark score gives a null [uplift] and a null
    [has_uplift]. *)
Definition rank_fva (y_true y_pred : Panel) (y_pred_bench : option Panel)
  (scoring : option METRIC_TYPE) (descending : bool) : result (list UpliftRow) :=
  let scoring := match scoring with Some f => f | None => smape end in
  scores <- scoring y_true (ObjFrame y_pred) ;;
  let y_pred_bench :=
    match y_pred_bench with
    | None => ObjDict []
    | Some p => ObjFrame p
    end in
  scores_bench <- scoring y_true y_pred_bench ;;
  let joined := left_join (data scores) (data scores_bench) in
  let with_columns :=
    map (fun r =>
           let score := snd (fst r) in
           mkUpliftRow (fst (fst r))
             (option_map (fun bench => bench - score) (snd r))
             (option_map (fun bench => Qlt_bool 0 (bench - score)) (snd r)))
        joined in
  Ok (sort_rows (fun a b => null_order descending (uplift a) (uplift b)) with_columns).

(** ** Closed forms used in the statements *)

(** The weighted squared autocorrelation of lag [i] in [_acf_sqr_ratio]. *)
Definition lb_term (x : list Q) (i : nat) : Q :=
  (pl_corr x (shift i x) i) ^ 2 /
  inject_Z (u32_sub (Z.of_nat (List.length x)) (Z.of_nat i)).

(** The same as a cell, a number when the autocorrelation is one. *)
Definition lb_cell (x : list Q) (i : nat) : cell :=
  cell_map (fun a => a / inject_Z (u32_sub (Z.of_nat (List.length x)) (Z.of_nat i)))
    (cell_map (fun a => a ^ 2) (corr_cell x (shift i x) i)).

(** The factor [length * (length + 2)] of a series, as the code computes
    it. *)
Definition lb_factor (x : list Q) : Z :=
  u32_mul (Z.of_nat (List.length x)) (u32_add (Z.of_nat (List.length x)) 2).

(** The Q-statistics of one entity, from its series. *)
Definition qstats_of (max_lags : nat) (x : list Q) : list cell :=
  map (cell_map (fun c => inject_Z (lb_factor x) * c))
      (cumsum_cells (map (lb_cell x) (seq 1 max_lags))).

(** The autocorrelations [acorr_0 .. acorr_max_lags] of one series. *)
Definition acorr (x : list Q) (max_lags : nat) : list Q :=
  fst (acf_formula x max_lags).

(** The row of one entity in the result of [acf], from its demeaned
    series. *)
Definition acf_row (ppf : Q) (max_lags : nat) (x : list Q) : ACFRow :=
  let a := acorr x max_lags in
  let interval := interval_column ppf max_lags a (map (fun _ => len x) a) in
  mkACFRow a
    (map (fun ai => fst ai - snd ai) (combine a interval))
    (map (fun ai => fst ai + snd ai) (combine a interval)).

End Evaluation.

(** ** Sample inputs *)

(** Three entities with the means A: 5, B: 1, C: 3; the value column is
    called [target]. *)
Definition panel_abc (target : string) : Panel :=
  mkPanel ("entity", "time", target)
    [ ("A", 0%Z, 4); ("B", 0%Z, 1); ("C", 0%Z, 2);
      ("A", 1%Z, 6); ("B", 1%Z, 1); ("C", 1%Z, 4) ].

(** One entity, four observations. *)
Definition panel_a4 : Panel :=
  mkPanel ("entity", "time", "value")
    [ ("A", 0%Z, 1); ("A", 1%Z, 2); ("A", 2%Z, 4); ("A", 3%Z, 3) ].

(** Residuals of two entities; those of A cancel. *)
Definition panel_resid : Panel :=
  mkPanel ("entity", "time", "resid")
    [ ("A", 0%Z, 1); ("B", 0%Z, 2); ("A", 1%Z, -1); ("B", 1%Z, 4) ].

(** Entity A has eight observations, entity B one. *)
Definition panel_short : Panel :=
  mkPanel ("entity", "time", "value")
    [ ("A", 0%Z, 1); ("A", 1%Z, 3); ("A", 2%Z, 2); ("A", 3%Z, 5);
      ("A", 4%Z, 4); ("A", 5%Z, 6); ("A", 6%Z, 8); ("A", 7%Z, 7);
      ("B", 0%Z, 1) ].

(** Stand-ins for the external primitives, to run the model on the sample
    inputs: a correlation that is always one half, a quantile that is
    always 2, the identity for the square root, a normality primitive that
    needs eight observations, and a metric score of one half per entity. *)
Definition corr_half : list Q -> list (option Q) -> nat -> Q := fun _ _ _ => 1 # 2.
Definition ppf_two : Q -> Q := fun _ => 2.
Definition sqrt_id : Q -> Q := fun q => q.
Definition normaltest_8 : list Q -> result Q :=
  fun s => if Nat.ltb (List.length s) 8 then Err InsufficientSamples else Ok 0.
Definition score_half : Panel -> Panel -> Frame2 :=
  fun y_true _ =>
    mkFrame2 "entity" "smape" (map (fun g => (fst g, 1 # 2)) (groupby (values y_true))).

(** Benchmark predictions for the entities A and B only. *)
Definition panel_bench : Panel :=
  mkPanel ("entity", "time", "y")
    [ ("A", 0%Z, 6); ("B", 0%Z, 0); ("A", 1%Z, 8); ("B", 1%Z, 1) ].

(** A stand-in metric: the score of an entity is the mean of its
    predictions. *)
Definition metric_mean : METRIC_TYPE :=
  fun _ y_pred =>
    match y_pred with
    | ObjFrame p =>
        Ok (mkFrame2 "entity" "score"
              (map (fun g => (fst g, mean (snd g))) (groupby (values p))))
    | ObjSeries _ | ObjDict _ => Err SchemaMismatch
    end.

(** A normality primitive that accepts every sample. *)
Definition normaltest_any : list Q -> result Q := fun _ => Ok (1 # 2).

(** [n] rows of the entity A at the times [t, t + 1, ...], the value being
    the time. *)
Fixpoint ramp (n : nat) (t : Z) : list (entity * Z * Q) :=
  match n with
  | O => []
  | S n' => ("A", t, inject_Z t) :: ramp n' (t + 1)%Z
  end.

(** One entity with 65536 observations. *)
Definition panel_long : Panel :=
  mkPanel ("entity", "time", "value") (ramp (Nat.pow 2 16) 0%Z).

(** Stand-ins for the kind of a correlation: always a number; or null as
    soon as the lag exceeds half the length of the series. *)
Definition kind_num : list Q -> list (option Q) -> nat -> corr_kind := fun _ _ _ => IsNum.
Definition kind_pairs : list Q -> list (option Q) -> nat -> corr_kind :=
  fun x _ i => if Nat.leb (2 * i) (List.length x) then IsNum else IsNull.

(** * Properties *)

(** ** groupby *)

Section Groupby.

Context {A : Type}.

#[warnings="-notation-for-abbreviation"]
Local Notation add_row :=
  (fun (gs : list (entity * list A)) (r : entity * A) => group_add (fst r) (snd r) gs)
  (only parsing).

Lemma group_of_add (e e' : entity) (a : A) (gs : list (entity * list A)) :
  group_of e' (group_add e a gs) =
  if String.eqb e e' then group_of e' gs ++ [a] else group_of e' gs.
Proof.
  induction gs as [|[k l] t IH]; simpl.
  - rewrite (String.eqb_sym e' e). destruct (String.eqb e e'); reflexivity.
  - destruct (String.eqb e k) eqn:Hek; simpl.
    + apply String.eqb_eq in Hek; subst k.
      rewrite (String.eqb_sym e' e).
      destruct (String.eqb e e'); reflexivity.
    + destruct (String.eqb e' k) eqn:He'k.
      * apply String.eqb_eq in He'k; subst k. rewrite Hek. reflexivity.
      * exact IH.
Qed.

Lemma group_of_fold (e : entity) (rs : list (entity * A)) :
  forall acc, group_of e (fold_left add_row rs acc) = group_of e acc ++ window e rs.
Proof.
  induction rs as [|[k a] t IH]; intros acc; simpl.
  - unfold window; simpl. now rewrite app_nil_r.
  - rewrite IH, group_of_add. unfold window; simpl.
    destruct (String.eqb k e); simpl; [now rewrite <- app_assoc | reflexivity].
Qed.

Lemma group_add_keys_nodup (e : entity) (a : A) (gs : list (entity * list A)) :
  NoDup (map fst gs) -> NoDup (map fst (group_add e a gs)).
Proof.
  induction gs as [|[k l] t IH]; simpl; intros Hnd.
  - constructor; [intros []|constructor].
  - destruct (String.eqb e k) eqn:Hek; simpl; [exact Hnd|].
    inversion Hnd as [|? ? Hnotin Hnd']; subst.
    constructor; [|auto].
    intros Hin. apply Hnotin.
    clear - Hin Hek.
    induction t as [|[k' l'] t' IH]; simpl in *.
    + destruct Hin as [Heq|[]]. subst. rewrite String.eqb_refl in Hek. discriminate.
    + destruct (String.eqb e k'); simpl in *; tauto.
Qed.

Lemma group_add_nonempty (e : entity) (a : A) (gs : list (entity * list A)) :
  Forall (fun g => snd g <> []) gs ->
  Forall (fun g => snd g <> []) (group_add e a gs).
Proof.
  induction gs as [|[k l] t IH]; simpl; intros Hne.
  - constructor; [discriminate|constructor].
  - inversion Hne; subst.
    destruct (String.eqb e k); constructor; simpl; auto.
    destruct l; discriminate.
Qed.

(** The keys of the groups are distinct and no group is empty. *)
Lemma groupby_wf (rs : list (entity * A)) :
  NoDup (map fst (groupby rs)) /\ Forall (fun g => snd g <> []) (groupby rs).
Proof.
  unfold groupby.
  assert (H : forall acc,
    NoDup (map fst acc) /\ Forall (fun g => snd g <> []) acc ->
    NoDup (map fst (fold_left add_row rs acc)) /\
    Forall (fun g => snd g <> []) (fold_left add_row rs acc)).
  { induction rs as [|r t IH]; intros acc [H1 H2]; simpl; [auto|].
    apply IH. split; [now apply group_add_keys_nodup | now apply group_add_nonempty]. }
  apply H. split; constructor.
Qed.

Lemma group_of_In (e : entity) (x : list A) (gs : list (entity * list A)) :
  NoDup (map fst gs) -> In (e, x) gs -> group_of e gs = x.
Proof.
  induction gs as [|[k l] t IH]; simpl; intros Hnd Hin; [contradiction|].
  inversion Hnd as [|? ? Hnotin Hnd']; subst.
  destruct Hin as [Heq|Hin].
  - inversion Heq; subst. now rewrite String.eqb_refl.
  - destruct (String.eqb e k) eqn:Hek; [|auto].
    apply String.eqb_eq in Hek; subst k.
    exfalso. apply Hnotin. now apply (in_map fst) in Hin.
Qed.

Lemma group_of_found (e : entity) (gs : list (entity * list A)) :
  group_of e gs <> [] -> In (e, group_of e gs) gs.
Proof.
  induction gs as [|[k l] t IH]; simpl; intros Hne; [congruence|].
  destruct (String.eqb e k) eqn:Hek.
  - apply String.eqb_eq in Hek. subst. now left.
  - right. auto.
Qed.

Lemma window_nonempty (e : entity) (rs : list (entity * A)) :
  In e (map fst rs) <-> window e rs <> [].
Proof.
  unfold window. induction rs as [|[k a] t IH]; simpl.
  - split; [contradiction|congruence].
  - destruct (String.eqb k e) eqn:Hke; simpl.
    + apply String.eqb_eq in Hke. split; [discriminate|auto].
    + rewrite <- IH. apply String.eqb_neq in Hke. tauto.
Qed.

(** A group holds the rows of its entity, in the order of the frame. *)
Lemma groupby_In (e : entity) (x : list A) (rs : list (entity * A)) :
  In (e, x) (groupby rs) -> x = window e rs /\ In e (map fst rs).
Proof.
  intros Hin. destruct (groupby_wf rs) as [Hnd Hne].
  assert (Hx : x = window e rs).
  { rewrite <- (group_of_In e x _ Hnd Hin). unfold groupby.
    now rewrite group_of_fold. }
  split; [exact Hx|].
  apply window_nonempty. rewrite <- Hx.
  rewrite Forall_forall in Hne. exact (Hne _ Hin).
Qed.

(** Every entity of the frame has a group: its rows. *)
Lemma groupby_has (e : entity) (rs : list (entity * A)) :
  In e (map fst rs) -> In (e, window e rs) (groupby rs).
Proof.
  intros Hin.
  assert (Hg : group_of e (groupby rs) = window e rs).
  { unfold groupby. now rewrite group_of_fold. }
  rewrite <- Hg. apply group_of_found. rewrite Hg. now apply window_nonempty.
Qed.

Lemma group_add_fresh (e : entity) (a : A) (acc : list (entity * list A)) :
  ~ In e (map fst acc) -> group_add e a acc = acc ++ [(e, [a])].
Proof.
  induction acc as [|[k l] t IH]; simpl; intros Hnotin; [reflexivity|].
  destruct (String.eqb e k) eqn:Hek.
  - apply String.eqb_eq in Hek. subst. tauto.
  - f_equal. apply IH. tauto.
Qed.

Lemma group_add_last (e : entity) (a : A) (l0 : list A) (acc : list (entity * list A)) :
  ~ In e (map fst acc) ->
  group_add e a (acc ++ [(e, l0)]) = acc ++ [(e, l0 ++ [a])].
Proof.
  induction acc as [|[k l] t IH]; simpl; intros Hnotin.
  - now rewrite String.eqb_refl.
  - destruct (String.eqb e k) eqn:Hek.
    + apply String.eqb_eq in Hek. subst. tauto.
    + f_equal. apply IH. tauto.
Qed.

Lemma fold_group_last (e : entity) (l : list A) :
  forall (l0 : list A) (acc : list (entity * list A)),
    ~ In e (map fst acc) ->
    fold_left add_row (map (pair e) l) (acc ++ [(e, l0)]) = acc ++ [(e, l0 ++ l)].
Proof.
  induction l as [|a t IH]; simpl; intros l0 acc Hnotin.
  - now rewrite app_nil_r.
  - rewrite group_add_last by assumption. rewrite IH by assumption.
    now rewrite <- app_assoc.
Qed.

Lemma fold_group_fresh (e : entity) (l : list A) (acc : list (entity * list A)) :
  ~ In e (map fst acc) -> l <> [] ->
  fold_left add_row (map (pair e) l) acc = acc ++ [(e, l)].
Proof.
  destruct l as [|a t]; intros Hnotin Hne; [congruence|]. simpl.
  rewrite group_add_fresh by assumption.
  now rewrite fold_group_last.
Qed.

(** Listing the rows of every group and grouping again gives the groups
    back. *)
Lemma groupby_ungroup (gs : list (entity * list A)) :
  NoDup (map fst gs) -> Forall (fun g => snd g <> []) gs ->
  groupby (flat_map (fun g => map (pair (fst g)) (snd g)) gs) = gs.
Proof.
  unfold groupby.
  enough (H : forall acc,
    NoDup (map fst (acc ++ gs)) -> Forall (fun g => snd g <> []) gs ->
    fold_left add_row (flat_map (fun g => map (pair (fst g)) (snd g)) gs) acc = acc ++ gs).
  { intros Hnd Hne. exact (H [] Hnd Hne). }
  induction gs as [|[e l] t IH]; simpl; intros acc Hnd Hne.
  - now rewrite app_nil_r.
  - inversion Hne as [|? ? Hl Hne']; subst. simpl in Hl.
    rewrite fold_left_app.
    rewrite fold_group_fresh; trivial.
    + rewrite IH; trivial; now rewrite <- app_assoc.
    + rewrite map_app in Hnd. simpl in Hnd.
      apply NoDup_remove_2 in Hnd. intros Hin. apply Hnd.
      apply in_or_app. now left.
Qed.

End Groupby.

Lemma explode_as_rows {A B : Type} (f : list (entity * (list A * B))) :
  explode f =
  flat_map (fun g => map (pair (fst g)) (snd g))
    (map (fun g => (fst g, map (fun a => (a, snd (snd g))) (fst (snd g)))) f).
Proof.
  unfold explode. induction f as [|g t IH]; simpl; [reflexivity|].
  rewrite IH. f_equal. now rewrite map_map.
Qed.

(** Exploding a list column and grouping again: the groups come back, each
    list element paired with the repeated cell. *)
Lemma groupby_explode {A B : Type} (f : list (entity * (list A * B))) :
  NoDup (map fst f) -> Forall (fun g => fst (snd g) <> []) f ->
  groupby (explode f) =
  map (fun g => (fst g, map (fun a => (a, snd (snd g))) (fst (snd g)))) f.
Proof.
  intros Hnd Hne. rewrite explode_as_rows. apply groupby_ungroup.
  - now rewrite map_map.
  - rewrite Forall_map. eapply Forall_impl; [|exact Hne].
    intros g Hg. simpl. intros Heq. apply Hg. now apply map_eq_nil in Heq.
Qed.

(** ** Lists, sums and the error monad *)

Lemma Qsum_app (l1 l2 : list Q) : Qsum (l1 ++ l2) == Qsum l1 + Qsum l2.
Proof.
  unfold Qsum. induction l1 as [|a t IH]; simpl; [ring|]. rewrite IH. ring.
Qed.

Lemma cumsum_from_length (l : list Q) :
  forall acc, List.length (cumsum_from acc l) = List.length l.
Proof. induction l; intros; simpl; auto. Qed.

(** The running sum at position [j] is the sum of the first [j + 1]
    elements. *)
Lemma cumsum_from_nth (l : list Q) :
  forall acc j, (j < List.length l)%nat ->
    exists q, nth_error (cumsum_from acc l) j = Some q /\
              q == acc + Qsum (firstn (S j) l).
Proof.
  induction l as [|a t IH]; intros acc j Hj; simpl in Hj; [lia|].
  destruct j as [|j].
  - exists (acc + a). split; [reflexivity|]. simpl. unfold Qsum. destruct t; simpl; ring.
  - destruct (IH (acc + a) j) as [q [Hq1 Hq2]]; [lia|].
    exists q. split; [exact Hq1|].
    rewrite Hq2. change (firstn (S (S j)) (a :: t)) with (a :: firstn (S j) t).
    unfold Qsum. simpl. ring.
Qed.

Lemma firstn_seq_le (k : nat) :
  forall start n, (k <= n)%nat -> firstn k (seq start n) = seq start k.
Proof.
  induction k as [|k IH]; intros start [|n] Hk; simpl; try reflexivity; try lia.
  f_equal. apply IH. lia.
Qed.

Lemma nth_error_map_seq {B : Type} (f : nat -> B) (n : nat) :
  forall start j, (j < n)%nat -> nth_error (map f (seq start n)) j = Some (f (start + j)%nat).
Proof.
  induction n as [|n IH]; intros start j Hj; [lia|].
  destruct j as [|j]; simpl.
  - now rewrite Nat.add_0_r.
  - rewrite IH by lia. f_equal. f_equal. lia.
Qed.

Lemma nth_error_combine {B C : Type} (a : list B) :
  forall (b : list C) k x y,
    nth_error a k = Some x -> nth_error b k = Some y ->
    nth_error (combine a b) k = Some (x, y).
Proof.
  induction a as [|a0 t IH]; intros [|b0 b] [|k] x y Ha Hb; simpl in *;
    try discriminate.
  - congruence.
  - now apply IH.
Qed.

Lemma nth_error_slice {A : Type} (offset n j : nat) (l : list A) :
  (j < n)%nat -> nth_error (slice offset n l) j = nth_error l (offset + j).
Proof.
  unfold slice. intros Hj.
  rewrite nth_error_firstn.
  destruct (Nat.ltb_spec j n); [|lia].
  apply nth_error_skipn.
Qed.

Lemma map_combine_seq {B C : Type} (f : nat -> B) (h : B * nat -> C) (s : list nat) :
  map h (combine (map f s) s) = map (fun i => h (f i, i)) s.
Proof. induction s; simpl; congruence. Qed.

(** A column that repeats one cell, zipped with another column. *)
Lemma combine_const_map {B C D E : Type} (n : B) (h : B * E -> C) (r : list D) :
  forall c, List.length c = List.length r ->
    map h (combine (map (fun _ => n) r) c) = map (fun q => h (n, q)) c.
Proof.
  induction r as [|a t IH]; intros [|q c] Hlen; simpl in *; try lia; [reflexivity|].
  f_equal. apply IH. lia.
Qed.

Lemma map_fst_combine {A B : Type} (a : list A) :
  forall b : list B, List.length a = List.length b -> map fst (combine a b) = a.
Proof.
  induction a as [|x t IH]; intros [|y b] H; simpl in *; try lia; [reflexivity|].
  f_equal. apply IH. lia.
Qed.

Lemma map_snd_combine {A B : Type} (a : list A) :
  forall b : list B, List.length a = List.length b -> map snd (combine a b) = b.
Proof.
  induction a as [|x t IH]; intros [|y b] H; simpl in *; try lia; [reflexivity|].
  f_equal. apply IH. lia.
Qed.

Lemma flat_map_over_map {A B C : Type} (h : A -> B) (f : B -> list C) (l : list A) :
  flat_map f (map h l) = flat_map (fun a => f (h a)) l.
Proof. induction l; simpl; congruence. Qed.

Lemma mapM_ok {A B : Type} (f : A -> result B) (g : A -> B) (l : list A) :
  (forall a, In a l -> f a = Ok (g a)) -> mapM f l = Ok (map g l).
Proof.
  induction l as [|a t IH]; simpl; intros H; [reflexivity|].
  rewrite (H a) by now left. simpl. rewrite IH by auto. reflexivity.
Qed.

Lemma mapM_map_ok {A B C : Type} (h : A -> B) (f : B -> result C) (g : A -> C)
  (l : list A) :
  (forall a, In a l -> f (h a) = Ok (g a)) -> mapM f (map h l) = Ok (map g l).
Proof.
  induction l as [|a t IH]; simpl; intros H; [reflexivity|].
  rewrite (H a) by now left. simpl. rewrite IH by auto. reflexivity.
Qed.

(** One failing element makes the whole traversal fail. *)
Lemma mapM_err {A B : Type} (f : A -> result B) (l : list A) (a : A) (e : exn) :
  In a l -> f a = Err e -> exists e', mapM f l = Err e'.
Proof.
  induction l as [|b t IH]; simpl; intros Hin Hf; [contradiction|].
  destruct Hin as [->|Hin].
  - rewrite Hf. simpl. eauto.
  - destruct (f b); simpl; [|eauto].
    destruct (IH Hin Hf) as [e' ->]. simpl. eauto.
Qed.

Lemma len_nonneg {A : Type} (x : list A) : 0 <= len x.
Proof.
  unfold len. change 0 with (inject_Z 0). rewrite <- Zle_Qle. lia.
Qed.

Lemma scaled_sum_le (w s t : Q) :
  0 <= w -> 0 <= t -> w * s <= w * (s + t).
Proof.
  intros Hw Ht.
  assert (H : 0 <= w * t) by (apply Qmult_le_0_compat; assumption).
  setoid_replace (w * (s + t)) with (w * s + w * t) by ring.
  lra.
Qed.

Lemma Qsum_map_ext {A : Type} (f g : A -> Q) (l : list A) :
  (forall a, In a l -> f a == g a) -> Qsum (map f l) == Qsum (map g l).
Proof.
  unfold Qsum. induction l as [|a t IH]; intros H; simpl; [reflexivity|].
  rewrite (H a) by now left. rewrite IH; [reflexivity|]. intros b Hb. apply H. now right.
Qed.

(** *** Cells *)

Lemma cumsum_cells_from_length (l : list cell) :
  forall acc, List.length (cumsum_cells_from acc l) = List.length l.
Proof.
  induction l as [|c t IH]; intros acc; [reflexivity|].
  destruct c; simpl; now rewrite IH.
Qed.

(** The running sum of a prefix of a column is the prefix of the running
    sum. *)
Lemma cumsum_cells_from_firstn (k : nat) :
  forall acc l, firstn k (cumsum_cells_from acc l) = cumsum_cells_from acc (firstn k l).
Proof.
  induction k as [|k IH]; intros acc [|c t]; try reflexivity.
  destruct c; simpl; now rewrite IH.
Qed.

(** Over leading numbers the running sum is the running sum of numbers. *)
Lemma cumsum_cells_from_nums (qs : list Q) :
  forall a rest,
    cumsum_cells_from (Num a) (map Num qs ++ rest) =
    map Num (cumsum_from a qs) ++ cumsum_cells_from (Num (fold_left Qplus qs a)) rest.
Proof.
  induction qs as [|q t IH]; intros a rest; simpl; [reflexivity|]. now rewrite IH.
Qed.

(** ** sort *)

Section Sorting.

Context {A : Type}.
Variable le : A -> A -> bool.
Hypothesis le_total : forall a b, le a b = true \/ le b a = true.

Lemma insert_by_perm (a : A) (l : list A) : Permutation (a :: l) (insert_by le a l).
Proof.
  induction l as [|b t IH]; simpl; [reflexivity|].
  destruct (le a b); [reflexivity|].
  rewrite perm_swap. now constructor.
Qed.

Lemma sort_rows_perm (l : list A) : Permutation l (sort_rows le l).
Proof.
  unfold sort_rows. induction l as [|a t IH]; simpl; [reflexivity|].
  rewrite <- insert_by_perm. now constructor.
Qed.

Lemma insert_by_sorted (a : A) (l : list A) :
  Sorted (fun x y => le x y = true) l ->
  Sorted (fun x y => le x y = true) (insert_by le a l).
Proof.
  induction l as [|b t IH]; simpl; intros Hs.
  - repeat constructor.
  - destruct (le a b) eqn:Hab.
    + constructor; [exact Hs|]. now constructor.
    + inversion Hs as [|? ? Hst Hhd]; subst.
      constructor; [auto|].
      destruct t as [|c t']; simpl.
      * constructor. destruct (le_total a b); congruence.
      * destruct (le a c); constructor.
        -- destruct (le_total a b); congruence.
        -- now inversion Hhd.
Qed.

Lemma sort_rows_sorted (l : list A) :
  Sorted (fun x y => le x y = true) (sort_rows le l).
Proof.
  unfold sort_rows. induction l as [|a t IH]; simpl; [constructor|].
  now apply insert_by_sorted.
Qed.

End Sorting.

Lemma Qorder_total (descending : bool) (a b : Q) :
  Qorder descending a b = true \/ Qorder descending b a = true.
Proof.
  unfold Qorder. destruct descending; rewrite !Qle_bool_iff;
    destruct (Qlt_le_dec a b) as [H|H]; auto using Qlt_le_weak.
Qed.

Lemma Sorted_Qorder_asc (l : list (entity * Q)) :
  Sorted (fun a b => Qorder false (snd a) (snd b) = true) l ->
  Sorted (fun a b => snd a <= snd b) l.
Proof.
  induction 1 as [|a l Hs IH Hhd]; constructor; [exact IH|].
  destruct Hhd as [|b l Hab]; constructor.
  now apply Qle_bool_iff.
Qed.

(** ** join *)

Lemma filter_key_absent (k : entity) (t : list (entity * Q)) :
  ~ In k (map fst t) -> filter (fun b => String.eqb (fst b) k) t = [].
Proof.
  induction t as [|c t IH]; simpl; intros Hnotin; [reflexivity|].
  destruct (String.eqb _ k) eqn:Hc.
  - apply String.eqb_eq in Hc. tauto.
  - apply IH. tauto.
Qed.

Lemma filter_key_nodup (d : list (entity * Q)) (a : entity * Q) :
  NoDup (map fst d) -> In a d ->
  filter (fun b => String.eqb (fst b) (fst a)) d = [a].
Proof.
  induction d as [|b t IH]; simpl; intros Hnd Hin; [contradiction|].
  inversion Hnd as [|? ? Hnotin Hnd']; subst.
  destruct Hin as [->|Hin].
  - rewrite String.eqb_refl. now rewrite filter_key_absent.
  - destruct (String.eqb _ (fst a)) eqn:Hb.
    + apply String.eqb_eq in Hb. exfalso. apply Hnotin.
      apply (in_map fst) in Hin. now rewrite Hb.
    + now apply IH.
Qed.

(** Joining a table with unique keys to itself pairs each row with itself. *)
Lemma left_join_self (d : list (entity * Q)) :
  NoDup (map fst d) ->
  left_join d d = map (fun a => (fst a, snd a, Some (snd a))) d.
Proof.
  intros Hnd. unfold left_join.
  rewrite flat_map_concat_map.
  rewrite (map_ext_in _ (fun a => [(fst a, snd a, Some (snd a))])).
  - clear Hnd. induction d as [|a t IH]; simpl; [reflexivity|now rewrite IH].
  - intros a Ha. now rewrite (filter_key_nodup d a Hnd Ha).
Qed.

Section Properties.

Variable pl_corr : list Q -> list (option Q) -> nat -> Q.
Variable pl_corr_kind : list Q -> list (option Q) -> nat -> corr_kind.
Variable pl_sqrt : Q -> Q.
Variable norm_ppf : Q -> Q.
Variable normaltest : list Q -> result Q.
Variables mae mape mse overforecast rmse underforecast : METRIC_TYPE.
Variables mase rmsse : Panel -> METRIC_TYPE.
Variable smape_score : Panel -> Panel -> Frame2.

(** ** Ljung-Box *)

Lemma acf_sqr_ratio_terms (max_lags : nat) (x : list Q) :
  _acf_sqr_ratio pl_corr pl_corr_kind max_lags x =
  (map (lb_cell pl_corr pl_corr_kind x) (seq 1 max_lags), Z.of_nat (List.length x)).
Proof.
  unfold _acf_sqr_ratio. f_equal.
  rewrite map_map.
  exact (map_combine_seq
           (fun i => cell_map (fun a => a ^ 2) (corr_cell pl_corr pl_corr_kind x (shift i x) i))
           (fun ak => cell_map
                        (fun a => a / inject_Z (u32_sub (Z.of_nat (List.length x))
                                                        (Z.of_nat (snd ak))))
                        (fst ak))
           (seq 1 max_lags)).
Qed.

(** The two [groupby] passes of [ljung_box_test] amount to one pass over
    the groups of the panel. *)
Lemma ljung_box_test_groups (X : Panel) (max_lags : nat) :
  (1 <= max_lags)%nat ->
  ljung_box_test pl_corr pl_corr_kind X max_lags =
  map (fun g => (fst g, qstats_of pl_corr pl_corr_kind max_lags (snd g)))
      (groupby (values X)).
Proof.
  intros Hlags. unfold ljung_box_test.
  rewrite groupby_explode.
  - rewrite !map_map. apply map_ext. intros [e x]. cbn [fst snd].
    rewrite acf_sqr_ratio_terms. cbn [fst snd]. f_equal.
    rewrite !map_map. cbn [fst snd].
    unfold _qstat_ljung_box, qstats_of, lb_factor.
    apply (combine_const_map (Z.of_nat (List.length x))
             (fun lc => cell_map
                          (fun c => inject_Z (u32_mul (fst lc) (u32_add (fst lc) 2)) * c)
                          (snd lc))).
    unfold cumsum_cells. now rewrite cumsum_cells_from_length, !length_map.
  - rewrite map_map. cbn [fst]. apply groupby_wf.
  - rewrite Forall_map. apply Forall_forall. intros [e x] _. cbn [fst snd].
    rewrite acf_sqr_ratio_terms. cbn [fst snd].
    destruct max_lags; [lia|discriminate].
Qed.

Lemma qstats_of_length (max_lags : nat) (x : list Q) :
  List.length (qstats_of pl_corr pl_corr_kind max_lags x) = max_lags.
Proof.
  unfold qstats_of, cumsum_cells.
  now rewrite length_map, cumsum_cells_from_length, length_map, length_seq.
Qed.

(** Where the autocorrelation is a number, the cell is the number
    [lb_term]. *)
Lemma lb_cell_num (x : list Q) (i : nat) :
  pl_corr_kind x (shift i x) i = IsNum ->
  lb_cell pl_corr pl_corr_kind x i = Num (lb_term pl_corr x i).
Proof. intros H. unfold lb_cell, corr_cell, lb_term. now rewrite H. Qed.

(** The Q-statistic of lag depth [k], when the autocorrelations of the
    lags [1 .. k] are numbers. *)
Lemma qstats_of_nth (max_lags k : nat) (x : list Q) :
  (1 <= k <= max_lags)%nat ->
  (forall i, (1 <= i <= k)%nat -> pl_corr_kind x (shift i x) i = IsNum) ->
  exists q, nth_error (qstats_of pl_corr pl_corr_kind max_lags x) (k - 1) = Some (Num q) /\
            q == inject_Z (lb_factor x) * Qsum (map (lb_term pl_corr x) (seq 1 k)).
Proof.
  intros Hk Hnum. unfold qstats_of, cumsum_cells.
  assert (Hseq : seq 1 max_lags = seq 1 k ++ seq (1 + k) (max_lags - k)).
  { rewrite <- seq_app. f_equal. lia. }
  rewrite Hseq, map_app.
  rewrite (map_ext_in (lb_cell pl_corr pl_corr_kind x)
             (fun i => Num (lb_term pl_corr x i)) (seq 1 k)).
  2:{ intros i Hi. apply in_seq in Hi. apply lb_cell_num. apply Hnum. lia. }
  rewrite <- (map_map (lb_term pl_corr x) Num).
  rewrite cumsum_cells_from_nums, map_app.
  destruct (cumsum_from_nth (map (lb_term pl_corr x) (seq 1 k)) 0 (k - 1))
    as [c [Hc1 Hc2]].
  { rewrite length_map, length_seq. lia. }
  exists (inject_Z (lb_factor x) * c). split.
  - rewrite nth_error_app1.
    + rewrite !nth_error_map, Hc1. reflexivity.
    + rewrite !length_map, cumsum_from_length, length_map, length_seq. lia.
  - rewrite Hc2. replace (S (k - 1)) with k by lia.
    rewrite firstn_all2 by (rewrite length_map, length_seq; lia).
    ring.
Qed.

Lemma lb_term_nonneg (x : list Q) (i : nat) : 0 <= lb_term pl_corr x i.
Proof.
  unfold lb_term, Qdiv.
  apply Qmult_le_0_compat.
  - simpl. nra.
  - apply Qinv_le_0_compat. change 0 with (inject_Z 0). rewrite <- Zle_Qle.
    unfold u32_sub. apply Z.mod_pos_bound. reflexivity.
Qed.

Lemma lb_factor_nonneg (x : list Q) : 0 <= inject_Z (lb_factor x).
Proof.
  change 0 with (inject_Z 0). rewrite <- Zle_Qle.
  unfold lb_factor, u32_mul. apply Z.mod_pos_bound. reflexivity.
Qed.

(** Below 65536 observations the factor does not wrap. *)
Lemma lb_factor_small (x : list Q) :
  (Z.of_nat (List.length x) < 65536)%Z ->
  inject_Z (lb_factor x) == len x * (len x + 2).
Proof.
  intros Hn. unfold lb_factor, u32_mul, u32_add, len.
  set (n := Z.of_nat (List.length x)) in *.
  assert (Hr : (0 <= n < 65536)%Z) by (unfold n; lia).
  rewrite (Z.mod_small (n + 2)) by lia.
  rewrite Z.mod_small by nia.
  rewrite inject_Z_mult, inject_Z_plus. reflexivity.
Qed.

(** Nor does [n - i] for a lag within the series. *)
Lemma lb_term_small (x : list Q) (i : nat) :
  (i <= List.length x)%nat ->
  (Z.of_nat (List.length x) < 65536)%Z ->
  lb_term pl_corr x i == (pl_corr x (shift i x) i) ^ 2 / (len x - of_nat i).
Proof.
  intros Hi Hn. unfold lb_term, u32_sub, len, of_nat.
  rewrite Z.mod_small by lia.
  unfold Z.sub. rewrite inject_Z_plus, inject_Z_opp. reflexivity.
Qed.

(** The Q-statistic of lag depth [k] of an entity, when the
    autocorrelations of the lags [1 .. k] are numbers: the factor is
    [length * (length + 2)] as an unsigned 32-bit integer. *)
Lemma ljung_box_qstat_value (X : Panel) (max_lags k : nat) (e : entity) :
  In e (map fst (values X)) ->
  (1 <= k <= max_lags)%nat ->
  let x := window e (values X) in
  (forall i, (1 <= i <= k)%nat -> pl_corr_kind x (shift i x) i = IsNum) ->
  exists qstats q,
    In (e, qstats) (ljung_box_test pl_corr pl_corr_kind X max_lags) /\
    List.length qstats = max_lags /\
    nth_error qstats (k - 1) = Some (Num q) /\
    q == inject_Z (lb_factor x) * Qsum (map (lb_term pl_corr x) (seq 1 k)).
Proof.
  intros He Hk x Hnum.
  destruct (qstats_of_nth max_lags k x Hk Hnum) as [q [Hq1 Hq2]].
  exists (qstats_of pl_corr pl_corr_kind max_lags x), q. repeat split.
  - rewrite ljung_box_test_groups by lia.
    apply (in_map (fun g => (fst g, qstats_of pl_corr pl_corr_kind max_lags (snd g)))
             _ (e, x)).
    apply groupby_has. exact He.
  - apply qstats_of_length.
  - exact Hq1.
  - exact Hq2.
Qed.

(** For a series of fewer than 65536 observations, and lags below its
    length whose autocorrelations are numbers, this is the formula
    [n * (n + 2) * sum_{i=1}^{k} acf i ^ 2 / (n - i)]. *)
Lemma ljung_box_qstat_formula_small (X : Panel) (max_lags k : nat) (e : entity) :
  In e (map fst (values X)) ->
  (1 <= k <= max_lags)%nat ->
  let x := window e (values X) in
  let n := len x in
  (k < List.length x)%nat ->
  (Z.of_nat (List.length x) < 65536)%Z ->
  (forall i, (1 <= i <= k)%nat -> pl_corr_kind x (shift i x) i = IsNum) ->
  exists qstats q,
    In (e, qstats) (ljung_box_test pl_corr pl_corr_kind X max_lags) /\
    List.length qstats = max_lags /\
    nth_error qstats (k - 1) = Some (Num q) /\
    q == n * (n + 2) *
         Qsum (map (fun i => (pl_corr x (shift i x) i) ^ 2 / (n - of_nat i)) (seq 1 k)).
Proof.
  intros He Hk x n Hkn Hn Hnum.
  destruct (ljung_box_qstat_value X max_lags k e He Hk Hnum)
    as [qstats [q [H1 [H2 [H3 H4]]]]].
  exists qstats, q. repeat split; trivial.
  fold x in H4. rewrite H4, (lb_factor_small x Hn).
  rewrite (Qsum_map_ext (lb_term pl_corr x)
             (fun i => (pl_corr x (shift i x) i) ^ 2 / (n - of_nat i))); [reflexivity|].
  intros i Hi. apply in_seq in Hi. apply lb_term_small; [lia|exact Hn].
Qed.

(** With 65536 observations [length * (length + 2)] wraps to 131072. *)
Lemma qstat_wraps_at_65536 (x : list Q) :
  Z.of_nat (List.length x) = 65536%Z ->
  pl_corr_kind x (shift 1 x) 1 = IsNum ->
  let r := pl_corr x (shift 1 x) 1 in
  exists q,
    nth_error (qstats_of pl_corr pl_corr_kind 1 x) 0 = Some (Num q) /\
    q == 131072 * (r ^ 2 / (65536 - 1)) /\
    (~ r == 0 -> ~ q == 65536 * (65536 + 2) * (r ^ 2 / (65536 - 1))).
Proof.
  intros Hlen Hnum r.
  destruct (qstats_of_nth 1 1 x) as [q [Hq1 Hq2]]; [lia| |].
  { intros i Hi. replace i with 1%nat by lia. exact Hnum. }
  assert (Hq : q == 131072 * (r ^ 2 / (65536 - 1))).
  { rewrite Hq2. unfold lb_factor, lb_term. rewrite Hlen.
    cbn [seq map]. unfold Qsum. cbn [fold_right]. fold r.
    change (u32_mul 65536 (u32_add 65536 2)) with 131072%Z.
    change (u32_sub 65536 (Z.of_nat 1)) with 65535%Z.
    change (inject_Z 131072) with 131072. change (inject_Z 65535) with 65535.
    setoid_replace (65536 - 1) with 65535 by reflexivity. ring. }
  exists q. split; [exact Hq1|]. split; [exact Hq|].
  intros Hr H. apply Hr. rewrite Hq in H.
  assert (Hsq : r ^ 2 == 0).
  { setoid_replace (65536 - 1) with 65535 in H by reflexivity.
    unfold Qdiv in H.
    setoid_replace (r ^ 2) with ((r ^ 2 * / 65535) * 65535) by (field; discriminate).
    lra. }
  simpl in Hsq. destruct (Qmult_integral _ _ Hsq); assumption.
Qed.

(** The same for an entity with 65536 observations in a panel. *)
Lemma ljung_box_qstat_wraps_at (X : Panel) (e : entity) :
  In e (map fst (values X)) ->
  let x := window e (values X) in
  let r := pl_corr x (shift 1 x) 1 in
  Z.of_nat (List.length x) = 65536%Z ->
  pl_corr_kind x (shift 1 x) 1 = IsNum ->
  exists qstats q,
    In (e, qstats) (ljung_box_test pl_corr pl_corr_kind X 1) /\
    nth_error qstats 0 = Some (Num q) /\
    len x == 65536 /\
    q == 131072 * (r ^ 2 / (65536 - 1)) /\
    (~ r == 0 -> ~ q == 65536 * (65536 + 2) * (r ^ 2 / (65536 - 1))).
Proof.
  intros He x r Hlen Hnum.
  destruct (qstat_wraps_at_65536 x Hlen Hnum) as [q [Hq1 [Hq2 Hq3]]].
  exists (qstats_of pl_corr pl_corr_kind 1 x), q.
  split; [|split; [exact Hq1|split; [|split; [exact Hq2|exact Hq3]]]].
  - rewrite ljung_box_test_groups by lia.
    apply (in_map (fun g => (fst g, qstats_of pl_corr pl_corr_kind 1 (snd g))) _ (e, x)).
    apply groupby_has. exact He.
  - unfold len. rewrite Hlen. reflexivity.
Qed.

Lemma panel_long_entity : In "A" (map fst (values panel_long)).
Proof.
  assert (H : existsb (String.eqb "A") (map fst (values panel_long)) = true)
    by (vm_compute; reflexivity).
  apply existsb_exists in H. destruct H as [e [He Heq]].
  apply String.eqb_eq in Heq. now subst e.
Qed.

Lemma panel_long_length :
  Z.of_nat (List.length (window "A" (values panel_long))) = 65536%Z.
Proof. vm_compute. reflexivity. Qed.

(** C5 (the code departs from the claim): [ljung_box_test] on the panel
    [panel_long] (one entity with [n = 65536] observations), lag depth 1,
    the lag-1 autocorrelation [r] being a number.  The code computes
    [length * (length + 2)] on the unsigned 32-bit length column, where
    [65536 * 65538] wraps to [131072]: the Q-statistic it returns is
    [131072 * (r ^ 2 / (n - 1))], which is not the
    [n * (n + 2) * (r ^ 2 / (n - 1))] of the claim unless [r] is zero. *)
Theorem ljung_box_qstat_wraps :
  let x := window "A" (values panel_long) in
  let r := pl_corr x (shift 1 x) 1 in
  pl_corr_kind x (shift 1 x) 1 = IsNum ->
  exists qstats q,
    In ("A", qstats) (ljung_box_test pl_corr pl_corr_kind panel_long 1) /\
    nth_error qstats 0 = Some (Num q) /\
    len x == 65536 /\
    q == 131072 * (r ^ 2 / (65536 - 1)) /\
    (~ r == 0 -> ~ q == 65536 * (65536 + 2) * (r ^ 2 / (65536 - 1))).
Proof.
  intros x r Hnum.
  exact (ljung_box_qstat_wraps_at panel_long "A" panel_long_entity panel_long_length Hnum).
Qed.

(** C6, amended: for every entity whose series is longer than [max_lags],
    and every [k = 1 .. max_lags - 1] such that the autocorrelations of the
    lags [1 .. k + 1] are numbers (neither null nor NaN), the
    Q-statistics of the lag depths [k] and [k + 1] are numbers and
    [Q k <= Q (k + 1)] (positions [k - 1] and [k] of the list). *)
Theorem ljung_box_qstat_monotone (X : Panel) (max_lags k : nat) (e : entity) :
  In e (map fst (values X)) ->
  (max_lags < List.length (window e (values X)))%nat ->
  (1 <= k <= max_lags - 1)%nat ->
  (forall i, (1 <= i <= k + 1)%nat ->
     pl_corr_kind (window e (values X)) (shift i (window e (values X))) i = IsNum) ->
  exists qstats q q',
    In (e, qstats) (ljung_box_test pl_corr pl_corr_kind X max_lags) /\
    nth_error qstats (k - 1) = Some (Num q) /\
    nth_error qstats k = Some (Num q') /\
    q <= q'.
Proof.
  intros He Hn Hk Hnum. set (x := window e (values X)) in *.
  destruct (qstats_of_nth max_lags k x) as [q [Hq1 Hq2]]; [lia| |].
  { intros i Hi. apply Hnum. lia. }
  destruct (qstats_of_nth max_lags (S k) x) as [q' [Hq1' Hq2']]; [lia| |].
  { intros i Hi. apply Hnum. lia. }
  replace (S k - 1)%nat with k in Hq1' by lia.
  exists (qstats_of pl_corr pl_corr_kind max_lags x), q, q'. repeat split; trivial.
  - rewrite ljung_box_test_groups by lia.
    apply (in_map (fun g => (fst g, qstats_of pl_corr pl_corr_kind max_lags (snd g)))
             _ (e, x)).
    apply groupby_has. exact He.
  - rewrite Hq2, Hq2'. rewrite seq_S, map_app, Qsum_app.
    assert (Ht : 0 <= lb_term pl_corr x (S k)) by apply lb_term_nonneg.
    unfold Qsum at 2. cbn [map fold_right Nat.add].
    setoid_replace (lb_term pl_corr x (S k) + 0) with (lb_term pl_corr x (S k)) by ring.
    apply scaled_sum_le; [apply lb_factor_nonneg | exact Ht].
Qed.

(** ** ACF *)

Lemma window_map_sub (m : entity -> Q) (e : entity) (l : list (entity * Q)) :
  window e (map (fun r => (fst r, snd r - m (fst r))) l) =
  map (fun v => v - m e) (window e l).
Proof.
  unfold window. induction l as [|[k v] t IH]; simpl; [reflexivity|].
  destruct (String.eqb k e) eqn:Hke; simpl; [|exact IH].
  apply String.eqb_eq in Hke. subst. now rewrite IH.
Qed.

(** Demeaning keeps the rows of an entity and subtracts their mean. *)
Lemma window_demean_over (e : entity) (rs : list (entity * Q)) :
  window e (demean_over rs) =
  map (fun v => v - mean (window e rs)) (window e rs).
Proof.
  unfold demean_over. exact (window_map_sub (fun k => mean (window k rs)) e rs).
Qed.

Lemma demean_over_keys (rs : list (entity * Q)) :
  map fst (demean_over rs) = map fst rs.
Proof. unfold demean_over. rewrite map_map. reflexivity. Qed.

Lemma acorr_length (x : list Q) (max_lags : nat) :
  List.length (acorr pl_corr x max_lags) = S max_lags.
Proof. unfold acorr, acf_formula. simpl. now rewrite length_map, length_seq. Qed.

Lemma acorr_nth (x : list Q) (max_lags k : nat) :
  (1 <= k <= max_lags)%nat ->
  nth_error (acorr pl_corr x max_lags) k = Some (pl_corr x (shift k x) k).
Proof.
  intros Hk. unfold acorr, acf_formula. cbn [fst].
  destruct k as [|k]; [lia|]. cbn [nth_error].
  now rewrite nth_error_map_seq by lia.
Qed.

Lemma var_acf_length (a : list Q) : List.length (var_acf a) = List.length a.
Proof. unfold var_acf, cumsum. now rewrite length_map, cumsum_from_length, length_map. Qed.

Lemma acf_confint_const (a : list Q) (n ppf : Q) :
  acf_confint_formula pl_sqrt a (map (fun _ => n) a) ppf =
  map (fun v => ppf * pl_sqrt ((1 / n) * v)) (var_acf a).
Proof.
  unfold acf_confint_formula.
  apply (combine_const_map n (fun lv => ppf * pl_sqrt ((1 / fst lv) * snd lv))).
  apply var_acf_length.
Qed.

Lemma interval_column_length (ppf : Q) (max_lags : nat) (x : list Q) :
  (1 <= max_lags)%nat ->
  List.length (interval_column pl_sqrt ppf max_lags (acorr pl_corr x max_lags)
                 (map (fun _ => len x) (acorr pl_corr x max_lags))) = S max_lags.
Proof.
  intros Hl. unfold interval_column. cbn [List.length]. unfold slice.
  rewrite length_firstn, length_skipn, acf_confint_const, length_map, var_acf_length,
    acorr_length. lia.
Qed.

(** The three [groupby] passes of [acf] amount to one pass over the groups
    of the demeaned panel. *)
Lemma acf_groups (X : Panel) (max_lags : nat) (alpha : Q) :
  (1 <= max_lags)%nat ->
  acf pl_corr pl_sqrt norm_ppf X max_lags alpha =
  Ok (map (fun g => (fst g, acf_row pl_corr pl_sqrt (norm_ppf (1 - alpha / 2)) max_lags (snd g)))
          (groupby (demean_over (values X)))).
Proof.
  intros Hl. unfold acf.
  set (ppf := norm_ppf (1 - alpha / 2)).
  set (gs := groupby (demean_over (values X))).
  destruct (groupby_wf (demean_over (values X))) as [Hnd Hne]. fold gs in Hnd, Hne.
  set (zipped := fun g : entity * list Q =>
         combine (acorr pl_corr (snd g) max_lags)
           (interval_column pl_sqrt ppf max_lags (acorr pl_corr (snd g) max_lags)
              (map (fun _ => len (snd g)) (acorr pl_corr (snd g) max_lags)))).
  rewrite groupby_explode.
  2:{ rewrite map_map. exact Hnd. }
  2:{ rewrite Forall_map. apply Forall_forall. intros g _. simpl. discriminate. }
  rewrite !map_map. cbn [fst snd].
  rewrite (mapM_map_ok _ _ (fun g => map (pair (fst g)) (zipped g))).
  2:{ intros [e x] _.
      cbn [fst snd]. rewrite !map_map. cbn [fst snd]. rewrite map_id.
      fold (acorr pl_corr x max_lags). unfold explode2.
      change (snd (acf_formula pl_corr x max_lags)) with (len x).
      rewrite interval_column_length, acorr_length, Nat.eqb_refl by exact Hl.
      reflexivity. }
  unfold bind. f_equal.
  rewrite <- flat_map_concat_map.
  rewrite <- (flat_map_over_map (fun g : entity * list Q => (fst g, zipped g))
                (fun g' : entity * list (Q * Q) => map (pair (fst g')) (snd g'))).
  rewrite groupby_ungroup.
  - rewrite map_map. apply map_ext. intros [e x]. cbn [fst snd].
    unfold acf_row, zipped. cbn zeta. cbn [fst snd].
    rewrite map_fst_combine, map_snd_combine; trivial;
      now rewrite interval_column_length, acorr_length.
  - rewrite map_map. exact Hnd.
  - rewrite Forall_map. apply Forall_forall. intros [e x] _. cbn [fst snd].
    unfold zipped. cbn [fst snd].
    destruct (acorr pl_corr x max_lags) eqn:Ha.
    + pose proof (acorr_length x max_lags) as H. rewrite Ha in H. discriminate.
    + unfold interval_column. discriminate.
Qed.

(** The variance term at position [k - 1] of the column [var], for
    [k >= 2]: the running sum starts at lag 0, whose square is 1. *)
Lemma var_acf_nth (x : list Q) (max_lags k : nat) :
  (2 <= k <= max_lags)%nat ->
  exists v, nth_error (var_acf (acorr pl_corr x max_lags)) (k - 1) = Some v /\
    v == 3 + 2 * Qsum (map (fun j => (pl_corr x (shift j x) j) ^ 2) (seq 1 (k - 1))).
Proof.
  intros Hk. unfold var_acf, cumsum.
  destruct (cumsum_from_nth (map (fun a => a ^ 2) (acorr pl_corr x max_lags)) 0 (k - 1))
    as [c [Hc1 Hc2]].
  { rewrite length_map, acorr_length. lia. }
  exists (1 + 2 * c). split.
  - now rewrite nth_error_map, Hc1.
  - rewrite Hc2.
    unfold acorr, acf_formula. cbn [fst map firstn]. rewrite !firstn_map, map_map.
    rewrite firstn_seq_le by lia.
    unfold Qsum at 1. cbn [fold_right].
    fold (Qsum (map (fun j => pl_corr x (shift j x) j ^ 2) (seq 1 (k - 1)))).
    ring.
Qed.

Lemma interval_column_nth (ppf : Q) (x : list Q) (max_lags k : nat) (v : Q) :
  (2 <= k <= max_lags)%nat ->
  nth_error (var_acf (acorr pl_corr x max_lags)) (k - 1) = Some v ->
  nth_error (interval_column pl_sqrt ppf max_lags (acorr pl_corr x max_lags)
               (map (fun _ => len x) (acorr pl_corr x max_lags))) k =
  Some (ppf * pl_sqrt ((1 / len x) * v)).
Proof.
  intros Hk Hv. unfold interval_column.
  destruct k as [|[|k]]; try lia. cbn [nth_error].
  rewrite nth_error_slice by lia.
  rewrite acf_confint_const, nth_error_map.
  replace (1 + k)%nat with (S (S k) - 1)%nat by lia.
  now rewrite Hv.
Qed.

(** What [acf] returns for one entity at a lag [k >= 2]: the band around
    the autocorrelation of lag [k] uses the original length [n] of the
    series and a variance term that counts the square of the lag-0
    autocorrelation, [3 + 2 * sum_{j=1}^{k-1} acf j ^ 2]. *)
Lemma acf_confint_lag (X : Panel) (max_lags k : nat) (alpha : Q) (e : entity) :
  In e (map fst (values X)) ->
  (2 <= k <= max_lags)%nat ->
  let w := window e (values X) in
  let x := map (fun v => v - mean w) w in
  let n := len w in
  let ppf := norm_ppf (1 - alpha / 2) in
  let r := fun j => pl_corr x (shift j x) j in
  exists t row v,
    acf pl_corr pl_sqrt norm_ppf X max_lags alpha = Ok t /\
    In (e, row) t /\
    nth_error (acf_values row) k = Some (r k) /\
    nth_error (confint_lower row) k = Some (r k - ppf * pl_sqrt ((1 / n) * v)) /\
    nth_error (confint_upper row) k = Some (r k + ppf * pl_sqrt ((1 / n) * v)) /\
    v == 3 + 2 * Qsum (map (fun j => (r j) ^ 2) (seq 1 (k - 1))).
Proof.
  intros He Hk w x n ppf r.
  destruct (var_acf_nth x max_lags k Hk) as [v [Hv1 Hv2]].
  assert (Hn : len x = n) by (unfold len, x; now rewrite length_map).
  exists (map (fun g => (fst g, acf_row pl_corr pl_sqrt ppf max_lags (snd g)))
            (groupby (demean_over (values X)))),
         (acf_row pl_corr pl_sqrt ppf max_lags x), v.
  pose proof (interval_column_nth ppf x max_lags k v Hk Hv1) as Hi.
  pose proof (acorr_nth x max_lags k ltac:(lia)) as Ha.
  repeat split.
  - apply acf_groups. lia.
  - apply (in_map (fun g => (fst g, acf_row pl_corr pl_sqrt ppf max_lags (snd g))) _ (e, x)).
    unfold x, w. rewrite <- window_demean_over.
    apply groupby_has. now rewrite demean_over_keys.
  - exact Ha.
  - unfold acf_row. cbn [confint_lower]. rewrite nth_error_map, <- Hn.
    now rewrite (nth_error_combine _ _ _ _ _ Ha Hi).
  - unfold acf_row. cbn [confint_upper]. rewrite nth_error_map, <- Hn.
    now rewrite (nth_error_combine _ _ _ _ _ Ha Hi).
  - exact Hv2.
Qed.

(** At lag 1 the band is the baseline [ppf * sqrt (1 / n)]. *)
Lemma acf_confint_lag1 (X : Panel) (max_lags : nat) (alpha : Q) (e : entity) :
  In e (map fst (values X)) ->
  (1 <= max_lags)%nat ->
  let w := window e (values X) in
  let x := map (fun v => v - mean w) w in
  let ppf := norm_ppf (1 - alpha / 2) in
  exists t row,
    acf pl_corr pl_sqrt norm_ppf X max_lags alpha = Ok t /\
    In (e, row) t /\
    nth_error (confint_lower row) 1 =
      Some (pl_corr x (shift 1 x) 1 - ppf * pl_sqrt (1 / len w)).
Proof.
  intros He Hl w x ppf.
  assert (Hn : len x = len w) by (unfold len, x; now rewrite length_map).
  exists (map (fun g => (fst g, acf_row pl_corr pl_sqrt ppf max_lags (snd g)))
            (groupby (demean_over (values X)))),
         (acf_row pl_corr pl_sqrt ppf max_lags x).
  repeat split.
  - now apply acf_groups.
  - apply (in_map (fun g => (fst g, acf_row pl_corr pl_sqrt ppf max_lags (snd g))) _ (e, x)).
    unfold x, w. rewrite <- window_demean_over.
    apply groupby_has. now rewrite demean_over_keys.
  - unfold acf_row. cbn [confint_lower]. rewrite nth_error_map, <- Hn.
    rewrite (nth_error_combine _ _ 1%nat (pl_corr x (shift 1 x) 1)
               (ppf * pl_sqrt (1 / len x))); [reflexivity| |reflexivity].
    apply acorr_nth. lia.
Qed.

(** C2 (the code departs from the claim): [acf] on the panel [panel_a4]
    (one entity, the series 1, 2, 4, 3, so [n = 4]) with [max_lags = 2].
    The band at lag 1 is [ppf * sqrt (1 / 4)]; the band at lag 2 is
    [ppf * sqrt ((1 / 4) * v)] with [v = 3 + 2 * acf1 ^ 2], because the
    running sum of squares starts at the lag-0 autocorrelation; the
    variance of the claim, [1 + 2 * acf1 ^ 2], is a different number.  The
    length in the formula is the original length 4 of the series. *)
Theorem acf_bartlett_counts_lag0 (alpha : Q) :
  let w := [1; 2; 4; 3] in
  let x := map (fun v => v - mean w) w in
  let ppf := norm_ppf (1 - alpha / 2) in
  let r1 := pl_corr x (shift 1 x) 1 in
  let r2 := pl_corr x (shift 2 x) 2 in
  exists v,
    acf pl_corr pl_sqrt norm_ppf panel_a4 2 alpha =
      Ok [("A", mkACFRow [1; r1; r2]
                  [1 - 0; r1 - ppf * pl_sqrt (1 / 4); r2 - ppf * pl_sqrt ((1 / 4) * v)]
                  [1 + 0; r1 + ppf * pl_sqrt (1 / 4); r2 + ppf * pl_sqrt ((1 / 4) * v)])] /\
    v == 3 + 2 * r1 ^ 2 /\
    ~ v == 1 + 2 * r1 ^ 2.
Proof.
  intros w x ppf r1 r2.
  exists (1 + 2 * (0 + 1 ^ 2 + r1 ^ 2)). split; [reflexivity|].
  split; [ring|]. intros H.
  assert (H' : 3 + 2 * r1 ^ 2 == 1 + 2 * r1 ^ 2) by (rewrite <- H; ring).
  simpl in H'. lra.
Qed.

(** ** Ranking *)

(** C1 (the code departs from the claim): [rank_forecasts] calls
    [_rank_entities] with the keyword [y], which is not one of its
    parameters, so every call, the one of the claim included
    ([sort_by = mean], [descending = False]), raises [TypeError] and no
    table is returned. *)
Theorem rank_forecasts_unexpected_keyword
  (y_pred y_true : Panel) (descending : bool) (sort_by : string) :
  rank_forecasts pl_sqrt mae mape mse overforecast rmse underforecast mase rmsse
    smape_score y_pred y_true descending sort_by =
  Err (TypeError "unexpected keyword argument y").
Proof. reflexivity. Qed.

(** Called directly, [_rank_entities] ranks the entities with the means
    A: 5, B: 1, C: 3 as B, C, A, when the value column is itself named
    [mean]. *)
Lemma rank_entities_mean_example (y_pred : Panel) :
  exists f,
    _rank_entities pl_sqrt mae mape mse overforecast rmse underforecast mase rmsse
      smape_score y_pred (panel_abc "mean") "mean" false = Ok f /\
    map fst (data f) = ["B"; "C"; "A"].
Proof. eexists. split; reflexivity. Qed.

(** With a value column of another name the sort finds no column [mean]. *)
Lemma rank_entities_by_stat_column (y_true : Panel) (descending : bool) :
  snd (columns y_true) <> "mean" ->
  fst (fst (columns y_true)) <> "mean" ->
  _rank_entities_by_stat pl_sqrt y_true "mean" descending =
  Err (ColumnNotFoundError "mean").
Proof.
  destruct y_true as [[[ec tc] vc] rs]. cbn [columns fst snd]. intros Hv He.
  apply String.eqb_neq in Hv, He.
  rewrite String.eqb_sym in Hv. rewrite String.eqb_sym in He.
  unfold _rank_entities_by_stat. cbn [columns].
  change (pl_getattr pl_sqrt "mean") with (Ok (A := list Q -> Q) mean).
  unfold bind at 1. unfold frame_sort. cbn [val_col key_col].
  now rewrite Hv, He.
Qed.

(** C3 (the code departs from the claim): the dict of [rank_residuals] has
    no entry for [autocor_lb] nor for [autocor_bg]; with either criterion
    the call raises [KeyError], whatever the residuals, and neither
    [ljung_box_test] nor any autocorrelation is computed. *)
Theorem rank_residuals_autocor_key_error
  (y_resids : Panel) (max_lags : nat) (alpha : Q) :
  rank_residuals normaltest y_resids "autocor_lb" max_lags alpha =
    Err (KeyError "autocor_lb") /\
  rank_residuals normaltest y_resids "autocor_bg" max_lags alpha =
    Err (KeyError "autocor_bg").
Proof. destruct y_resids as [[[ec tc] vc] rs]. split; reflexivity. Qed.

(** The criterion [normality] hands each group to [normality_test] as a
    series, which has no [columns]. *)
Lemma rank_residuals_normality_fails (y_resids : Panel) (max_lags : nat) (alpha : Q) :
  rows y_resids <> [] ->
  rank_residuals normaltest y_resids "normality" max_lags alpha =
  Err (AttributeError "columns").
Proof.
  destruct y_resids as [[[ec tc] vc] rs]. cbn [rows]. intros Hne.
  unfold rank_residuals. cbn [columns].
  change (dict_get (sort_by_to_expr normaltest) "normality")
    with (Ok (fun s : list Q =>
                _ <- normality_test normaltest (ObjSeries s) ;;
                Err (A := Q) (TypeError "apply: the result is not a scalar"))).
  unfold bind at 1.
  destruct (groupby (values {| columns := (ec, tc, vc); rows := rs |})) as [|g gs] eqn:Hg.
  - exfalso. destruct rs as [|[[e t] v] rs']; [congruence|].
    assert (Hin : In (e, window e (values {| columns := (ec, tc, vc);
                    rows := (e, t, v) :: rs' |}))
                    (groupby (values {| columns := (ec, tc, vc);
                    rows := (e, t, v) :: rs' |}))).
    { apply groupby_has. simpl. now left. }
    rewrite Hg in Hin. contradiction.
  - reflexivity.
Qed.

(** The two bias criteria: what [rank_residuals] computes. *)
Lemma rank_residuals_bias_value (y_resids : Panel) (sort_by : string)
  (max_lags : nat) (alpha : Q) :
  sort_by = "bias" \/ sort_by = "abs_bias" ->
  fst (fst (columns y_resids)) <> sort_by ->
  rank_residuals normaltest y_resids sort_by max_lags alpha =
  Ok (mkFrame2 (fst (fst (columns y_resids))) sort_by
        (sort_rows (fun a b => Qorder false (snd a) (snd b))
           (map (fun g => (fst g, Qabs (mean (snd g)))) (groupby (values y_resids))))).
Proof.
  destruct y_resids as [[[ec tc] vc] rs]. cbn [columns fst snd].
  intros Hs He. apply String.eqb_neq in He.
  unfold rank_residuals. cbn [columns].
  assert (Hd : dict_get (sort_by_to_expr normaltest) sort_by =
               Ok (fun s : list Q => Ok (Qabs (mean s)))).
  { destruct Hs; subst; reflexivity. }
  rewrite Hd. unfold bind at 1.
  rewrite (mapM_ok _ (fun g => (fst g, Qabs (mean (snd g))))) by reflexivity.
  unfold bind at 1. rewrite He. unfold bind at 1.
  unfold frame_sort. cbn [val_col key_col data]. now rewrite String.eqb_refl.
Qed.

(** C4 (amended): for the criteria [bias] and [abs_bias], [rank_residuals]
    sorts the entities, ascending, by the absolute value of the mean of
    their residuals, [|mean(residuals)|]; it returns one row per entity
    holding that value.  (The entity column must not itself be named as the
    criterion.) *)
Theorem rank_residuals_abs_of_mean (y_resids : Panel) (sort_by : string)
  (max_lags : nat) (alpha : Q) :
  sort_by = "bias" \/ sort_by = "abs_bias" ->
  fst (fst (columns y_resids)) <> sort_by ->
  exists f,
    rank_residuals normaltest y_resids sort_by max_lags alpha = Ok f /\
    Sorted (fun a b => snd a <= snd b) (data f) /\
    (forall e, In e (map fst (values y_resids)) ->
               In (e, Qabs (mean (window e (values y_resids)))) (data f)) /\
    (forall e v, In (e, v) (data f) ->
                 v = Qabs (mean (window e (values y_resids)))).
Proof.
  intros Hs He. eexists. split; [now apply rank_residuals_bias_value|].
  cbn [data]. split; [|split].
  - apply Sorted_Qorder_asc.
    apply (sort_rows_sorted (fun a b : entity * Q => Qorder false (snd a) (snd b))).
    intros a b. apply Qorder_total.
  - intros e Hin. eapply Permutation_in; [apply sort_rows_perm|].
    apply (in_map (fun g => (fst g, Qabs (mean (snd g)))) _ (e, window e (values y_resids))).
    now apply groupby_has.
  - intros e v Hin.
    eapply Permutation_in in Hin; [|symmetry; apply sort_rows_perm].
    apply in_map_iff in Hin. destruct Hin as [[e' x] [Heq Hin]].
    cbn [fst snd] in Heq. inversion Heq; subst.
    apply groupby_In in Hin. destruct Hin as [-> _]. reflexivity.
Qed.

(** C7: when the benchmark predictions are the predictions themselves,
    [rank_fva] returns one row per scored entity, each with [uplift == 0]
    and [has_uplift = False].  The metric (the default or a supplied one)
    is taken to succeed on [(y_true, y_pred)] and to return one score per
    entity. *)
Theorem rank_fva_identical (y_true y_pred : Panel) (scoring : option METRIC_TYPE)
  (descending : bool) (scores : Frame2) :
  (match scoring with Some f => f | None => smape smape_score end)
    y_true (ObjFrame y_pred) = Ok scores ->
  NoDup (map fst (data scores)) ->
  exists t,
    rank_fva smape_score y_true y_pred (Some y_pred) scoring descending = Ok t /\
    Permutation (map fva_entity t) (map fst (data scores)) /\
    (forall r, In r t ->
       exists u, uplift r = Some u /\ u == 0 /\ has_uplift r = Some false).
Proof.
  intros Hsc Hnd. unfold rank_fva. rewrite Hsc. unfold bind.
  eexists. split; [reflexivity|].
  rewrite left_join_self by exact Hnd. rewrite map_map. cbn [fst snd option_map].
  split.
  - rewrite <- sort_rows_perm. rewrite map_map. reflexivity.
  - intros r Hr. eapply Permutation_in in Hr; [|symmetry; apply sort_rows_perm].
    apply in_map_iff in Hr. destruct Hr as [[e s] [<- _]]. cbn [uplift has_uplift fst snd].
    eexists. split; [reflexivity|]. split; [ring|].
    f_equal. unfold Qlt_bool. apply negb_false_iff. apply Qle_bool_iff.
    setoid_replace (s - s) with 0 by ring. apply Qle_refl.
Qed.

(** With any metric, an omitted benchmark makes [rank_fva] call the metric
    on the empty dict; a failure of that call is the failure of
    [rank_fva]. *)
Lemma rank_fva_default_bench (y_true y_pred : Panel) (scoring : METRIC_TYPE)
  (descending : bool) (scores : Frame2) (e : exn) :
  scoring y_true (ObjFrame y_pred) = Ok scores ->
  scoring y_true (ObjDict []) = Err e ->
  rank_fva smape_score y_true y_pred None (Some scoring) descending = Err e.
Proof. intros H1 H2. unfold rank_fva. now rewrite H1, H2. Qed.

(** C10: for all panels [y_true] and [y_pred], [rank_fva] with
    [y_pred_bench] omitted raises an error and returns no uplift table:
    the default [None] becomes an empty dict, which the metric receives in
    place of a panel and rejects. *)
Theorem rank_fva_requires_benchmark (y_true y_pred : Panel) (descending : bool) :
  rank_fva smape_score y_true y_pred None None descending = Err SchemaMismatch.
Proof. reflexivity. Qed.

(** ** Parameters and failures *)

Lemma dict_get_unknown (sort_by : string) :
  ~ In sort_by ["bias"; "abs_bias"; "normality"] ->
  dict_get (sort_by_to_expr normaltest) sort_by = Err (KeyError sort_by).
Proof.
  intros H. simpl in H. unfold sort_by_to_expr, dict_get.
  destruct (String.eqb sort_by "bias") eqn:H1;
    [apply String.eqb_eq in H1; subst; tauto|].
  destruct (String.eqb sort_by "abs_bias") eqn:H2;
    [apply String.eqb_eq in H2; subst; tauto|].
  destruct (String.eqb sort_by "normality") eqn:H3;
    [apply String.eqb_eq in H3; subst; tauto|].
  reflexivity.
Qed.

(** C8 (amended): no parameter is validated and nothing raises
    [InvalidParameter].  A sort criterion that [rank_residuals] does not
    know fails the whole call at once, with no partial result, but the
    error is the [KeyError] of the dict lookup; and [acf], given at least
    one lag, returns a table for every [alpha], inside [(0,1)] or not: it
    hands [1 - alpha / 2] to the quantile function unchecked. *)
Theorem unchecked_parameters (y_resids X : Panel) (sort_by : string)
  (max_lags lags : nat) (alpha a : Q) :
  ~ In sort_by ["bias"; "abs_bias"; "normality"] ->
  (1 <= lags)%nat ->
  rank_residuals normaltest y_resids sort_by max_lags alpha = Err (KeyError sort_by) /\
  exists t, acf pl_corr pl_sqrt norm_ppf X lags a = Ok t.
Proof.
  intros Hs Hl. split.
  - destruct y_resids as [[[ec tc] vc] rs]. unfold rank_residuals. cbn [columns].
    now rewrite dict_get_unknown.
  - eexists. now apply acf_groups.
Qed.

(** On a panel with an entity, [normality_test] is the traversal of the
    groups. *)
Lemma normality_test_groups (X : Panel) (e : entity) :
  In e (map fst (values X)) ->
  normality_test normaltest (ObjFrame X) =
  (d <- mapM (fun g => s <- normaltest (snd g) ;; Ok (fst g, s)) (groupby (values X)) ;;
   Ok (mkFrame2 (fst (fst (columns X))) (snd (columns X)) d)).
Proof.
  intros He. apply groupby_has in He.
  destruct X as [[[ec tc] vc] rs]. unfold normality_test. cbn [columns fst snd].
  destruct (groupby (values {| columns := (ec, tc, vc); rows := rs |}));
    [contradiction|reflexivity].
Qed.

(** A table comes from a panel with at least one row. *)
Lemma normality_test_ok_rows (X : Panel) (f : Frame2) :
  normality_test normaltest (ObjFrame X) = Ok f ->
  exists e, In e (map fst (values X)).
Proof.
  destruct X as [[[ec tc] vc] rs]. unfold normality_test, values. cbn [columns rows].
  destruct rs as [|r rs]; [discriminate|].
  intros _. exists (fst (fst r)). simpl. now left.
Qed.

(** C9 (amended): [normality_test] has no per-entity handling of a failing
    primitive: when the primitive fails on the series of one entity, the
    whole call fails and no table is returned. *)
Theorem normality_test_aborts (X : Panel) (e : entity) (err : exn) :
  In e (map fst (values X)) ->
  normaltest (window e (values X)) = Err err ->
  exists err', normality_test normaltest (ObjFrame X) = Err err'.
Proof.
  intros He Herr. rewrite (normality_test_groups X e He).
  destruct (mapM_err (fun g => s <- normaltest (snd g) ;; Ok (fst g, s))
              (groupby (values X)) (e, window e (values X)) err) as [err' Hm].
  - now apply groupby_has.
  - cbn [fst snd]. now rewrite Herr.
  - exists err'. now rewrite Hm.
Qed.

(** When the panel has a row and the primitive succeeds on every entity,
    the table holds the statistic of each. *)
Lemma normality_test_all_ok (X : Panel) :
  rows X <> [] ->
  (forall e, In e (map fst (values X)) ->
             exists s, normaltest (window e (values X)) = Ok s) ->
  exists f,
    normality_test normaltest (ObjFrame X) = Ok f /\
    forall e, In e (map fst (values X)) ->
              exists s, normaltest (window e (values X)) = Ok s /\ In (e, s) (data f).
Proof.
  intros Hne Hall.
  assert (He0 : exists e0, In e0 (map fst (values X))).
  { unfold values. destruct (rows X) as [|r rs]; [congruence|].
    exists (fst (fst r)). simpl. now left. }
  destruct He0 as [e0 He0]. rewrite (normality_test_groups X e0 He0). clear e0 He0.
  set (stat := fun x => match normaltest x with Ok s => s | Err _ => 0 end).
  rewrite (mapM_ok _ (fun g => (fst g, stat (snd g)))).
  - eexists. split; [reflexivity|]. cbn [data].
    intros e He. destruct (Hall e He) as [s Hs]. exists s. split; [exact Hs|].
    replace s with (stat (window e (values X))) by (unfold stat; now rewrite Hs).
    apply (in_map (fun g => (fst g, stat (snd g))) _ (e, window e (values X))).
    now apply groupby_has.
  - intros [e x] Hin. cbn [fst snd].
    pose proof (groupby_In e x _ Hin) as [Hx He].
    destruct (Hall e He) as [s Hs]. unfold stat. rewrite Hx. now rewrite Hs.
Qed.

End Properties.

(** * The statements on sample inputs *)

(** The lag-1 autocorrelation of the series of [panel_long] taken as the
    number one half. *)
Lemma ljung_box_qstat_wraps_witness :
  let x := window "A" (values panel_long) in
  let r := corr_half x (shift 1 x) 1 in
  exists qstats q,
    In ("A", qstats) (ljung_box_test corr_half kind_num panel_long 1) /\
    nth_error qstats 0 = Some (Num q) /\
    len x == 65536 /\
    q == 131072 * (r ^ 2 / (65536 - 1)) /\
    (~ r == 0 -> ~ q == 65536 * (65536 + 2) * (r ^ 2 / (65536 - 1))).
Proof.
  apply (ljung_box_qstat_wraps corr_half kind_num).
  reflexivity.
Defined.

(** Lag depths 1 and 2 of the series of [panel_a4], whose autocorrelations
    of the lags 1 and 2 are numbers. *)
Lemma ljung_box_qstat_monotone_witness :
  exists qstats q q',
    In ("A", qstats) (ljung_box_test corr_half kind_pairs panel_a4 2) /\
    nth_error qstats 0 = Some (Num q) /\
    nth_error qstats 1 = Some (Num q') /\
    q <= q'.
Proof.
  apply (ljung_box_qstat_monotone corr_half kind_pairs panel_a4 2 1 "A").
  - simpl. now left.
  - simpl. lia.
  - lia.
  - intros i Hi.
    assert (Hc : i = 1%nat \/ i = 2%nat) by lia.
    destruct Hc as [-> | ->]; reflexivity.
Defined.

(** C6, as stated, fails on [panel_a4] with [max_lags = 3]: the series has
    four observations, more than [max_lags], but the autocorrelation of
    lag 3 is null (the shifted series leaves one pair of observations), so
    the third Q-statistic is null and [Q 2 <= Q 3] does not hold of it. *)
Lemma ljung_box_qstat_monotone_counterexample :
  (3 < List.length (window "A" (values panel_a4)))%nat /\
  kind_pairs (window "A" (values panel_a4)) (shift 3 (window "A" (values panel_a4))) 3
    = IsNull /\
  exists q1 q2,
    ljung_box_test corr_half kind_pairs panel_a4 3 = [("A", [Num q1; Num q2; Null])] /\
    ~ (exists qstats q q',
         In ("A", qstats) (ljung_box_test corr_half kind_pairs panel_a4 3) /\
         nth_error qstats 1 = Some (Num q) /\
         nth_error qstats 2 = Some (Num q') /\
         q <= q').
Proof.
  split; [simpl; lia|]. split; [reflexivity|].
  eexists. eexists. split; [vm_compute; reflexivity|].
  intros [qstats [q [q' [Hin [_ [H3 _]]]]]].
  vm_compute in Hin. destruct Hin as [Hin|[]].
  inversion Hin; subst qstats. discriminate.
Defined.

Lemma rank_residuals_abs_of_mean_witness :
  exists f,
    rank_residuals normaltest_8 panel_resid "bias" 12 (1 # 20) = Ok f /\
    Sorted (fun a b => snd a <= snd b) (data f) /\
    (forall e, In e (map fst (values panel_resid)) ->
               In (e, Qabs (mean (window e (values panel_resid)))) (data f)) /\
    (forall e v, In (e, v) (data f) ->
                 v = Qabs (mean (window e (values panel_resid)))).
Proof.
  apply (rank_residuals_abs_of_mean normaltest_8 panel_resid "bias" 12 (1 # 20)).
  - now left.
  - simpl. discriminate.
Defined.

(** C4, as stated, fails on [panel_resid]: the residuals of A are 1 and -1,
    the mean of their absolute values is 1, and the sort value of A is 0. *)
Lemma rank_residuals_bias_counterexample :
  exists f v,
    rank_residuals normaltest_8 panel_resid "bias" 12 (1 # 20) = Ok f /\
    In ("A", v) (data f) /\
    v == 0 /\
    mean (map Qabs (window "A" (values panel_resid))) == 1 /\
    ~ v == mean (map Qabs (window "A" (values panel_resid))).
Proof.
  eexists. exists (Qabs (mean [1; -1])).
  split; [reflexivity|]. split; [simpl; now left|].
  split; [reflexivity|]. split; [reflexivity|].
  vm_compute. discriminate.
Defined.

Lemma rank_fva_identical_witness :
  exists t,
    rank_fva score_half (panel_abc "y") (panel_abc "y") (Some (panel_abc "y")) None false
      = Ok t /\
    Permutation (map fva_entity t) ["A"; "B"; "C"] /\
    (forall r, In r t ->
       exists u, uplift r = Some u /\ u == 0 /\ has_uplift r = Some false).
Proof.
  apply (rank_fva_identical score_half (panel_abc "y") (panel_abc "y") None false
           (score_half (panel_abc "y") (panel_abc "y"))).
  - reflexivity.
  - simpl. repeat constructor; simpl; intuition discriminate.
Defined.

Lemma unchecked_parameters_witness :
  rank_residuals normaltest_8 panel_resid "no_such_criterion" 12 (1 # 20) =
    Err (KeyError "no_such_criterion") /\
  exists t, acf corr_half sqrt_id ppf_two panel_a4 2 2 = Ok t.
Proof.
  apply (unchecked_parameters corr_half sqrt_id ppf_two normaltest_8 panel_resid panel_a4
           "no_such_criterion" 12 2 (1 # 20) 2).
  - simpl. intuition discriminate.
  - lia.
Defined.

(** C8, as stated, fails: an unknown criterion does not raise
    [InvalidParameter], and [alpha = 2] raises nothing. *)
Lemma invalid_parameter_counterexample :
  rank_residuals normaltest_8 panel_resid "no_such_criterion" 12 (1 # 20)
    <> Err InvalidParameter /\
  acf corr_half sqrt_id ppf_two panel_a4 2 2 <> Err InvalidParameter.
Proof. split; vm_compute; discriminate. Defined.

Lemma normality_test_aborts_witness :
  exists err', normality_test normaltest_8 (ObjFrame panel_short) = Err err'.
Proof.
  apply (normality_test_aborts normaltest_8 panel_short "B" InsufficientSamples).
  - simpl. do 8 right. now left.
  - reflexivity.
Defined.

(** C9, as stated, fails on [panel_short]: the primitive succeeds on A and
    fails on B, and the call returns no table, not even for A. *)
Lemma normality_test_counterexample :
  normaltest_8 (window "A" (values panel_short)) = Ok 0 /\
  normaltest_8 (window "B" (values panel_short)) = Err InsufficientSamples /\
  normality_test normaltest_8 (ObjFrame panel_short) = Err InsufficientSamples /\
  ~ (exists f, normality_test normaltest_8 (ObjFrame panel_short) = Ok f).
Proof.
  repeat split; try reflexivity.
  intros [f Hf]. vm_compute in Hf. discriminate.
Defined.

(** * Further properties of the module *)

(** The keys of the groups are the entities of the frame. *)
Lemma groupby_keys {A : Type} (e : entity) (rs : list (entity * A)) :
  In e (map fst (groupby rs)) <-> In e (map fst rs).
Proof.
  split.
  - intros Hin. apply in_map_iff in Hin. destruct Hin as [[e' x] [Heq Hin]].
    simpl in Heq. subst e'. now apply groupby_In in Hin.
  - intros Hin. apply (in_map fst _ (e, window e rs)). now apply groupby_has.
Qed.

Lemma Qsum_nonneg (l : list Q) : Forall (fun q => 0 <= q) l -> 0 <= Qsum l.
Proof.
  unfold Qsum. induction 1 as [|a t Ha Ht IH]; simpl; [apply Qle_refl|].
  change 0 with (0 + 0). now apply Qplus_le_compat.
Qed.

Lemma cumsum_from_firstn (l : list Q) :
  forall acc k, firstn k (cumsum_from acc l) = cumsum_from acc (firstn k l).
Proof.
  induction l as [|a t IH]; intros acc [|k]; simpl; try reflexivity.
  now rewrite IH.
Qed.

Lemma nth_error_in_range {A : Type} (l : list A) (k : nat) :
  (k < List.length l)%nat -> exists a, nth_error l k = Some a.
Proof.
  intros Hk. destruct (nth_error l k) eqn:H; [eauto|].
  apply nth_error_None in H. lia.
Qed.

Section MoreLjungBox.

Variable pl_corr : list Q -> list (option Q) -> nat -> Q.
Variable pl_corr_kind : list Q -> list (option Q) -> nat -> corr_kind.

(** X7: with at least one lag, [ljung_box_test] returns exactly one row per
    entity of the panel, holding [max_lags] Q-statistics. *)
Theorem ljung_box_test_shape (X : Panel) (max_lags : nat) :
  (1 <= max_lags)%nat ->
  NoDup (map fst (ljung_box_test pl_corr pl_corr_kind X max_lags)) /\
  (forall e, In e (map fst (ljung_box_test pl_corr pl_corr_kind X max_lags)) <->
             In e (map fst (values X))) /\
  (forall e qstats, In (e, qstats) (ljung_box_test pl_corr pl_corr_kind X max_lags) ->
                    List.length qstats = max_lags).
Proof.
  intros Hl. rewrite ljung_box_test_groups by exact Hl.
  rewrite map_map. cbn [fst]. split; [apply groupby_wf|]. split.
  - intros e. apply groupby_keys.
  - intros e qstats Hin. apply in_map_iff in Hin. destruct Hin as [g [Heq _]].
    inversion Heq; subst. apply qstats_of_length.
Qed.

(** X8: for an entity whose series is longer than [max_lags], and a lag
    depth [k] such that the autocorrelations of the lags [1 .. k] are
    numbers (neither null nor NaN), the Q-statistic of depth [k] is a
    number and it is non-negative. *)
Theorem ljung_box_qstat_nonneg (X : Panel) (max_lags k : nat) (e : entity) :
  In e (map fst (values X)) ->
  (max_lags < List.length (window e (values X)))%nat ->
  (1 <= k <= max_lags)%nat ->
  (forall i, (1 <= i <= k)%nat ->
     pl_corr_kind (window e (values X)) (shift i (window e (values X))) i = IsNum) ->
  exists qstats q,
    In (e, qstats) (ljung_box_test pl_corr pl_corr_kind X max_lags) /\
    nth_error qstats (k - 1) = Some (Num q) /\
    0 <= q.
Proof.
  intros He Hn Hk Hnum. set (x := window e (values X)) in *.
  destruct (qstats_of_nth pl_corr pl_corr_kind max_lags k x Hk Hnum) as [q [Hq1 Hq2]].
  exists (qstats_of pl_corr pl_corr_kind max_lags x), q. repeat split; trivial.
  - rewrite ljung_box_test_groups by lia.
    apply (in_map (fun g => (fst g, qstats_of pl_corr pl_corr_kind max_lags (snd g)))
             _ (e, x)).
    now apply groupby_has.
  - rewrite Hq2.
    assert (Hs : 0 <= Qsum (map (lb_term pl_corr x) (seq 1 k))).
    { apply Qsum_nonneg. rewrite Forall_map. apply Forall_forall.
      intros i _. apply lb_term_nonneg. }
    apply Qmult_le_0_compat; [apply lb_factor_nonneg | exact Hs].
Qed.

Lemma qstats_of_prefix (x : list Q) (lags lags' : nat) :
  (lags <= lags')%nat ->
  qstats_of pl_corr pl_corr_kind lags x =
  firstn lags (qstats_of pl_corr pl_corr_kind lags' x).
Proof.
  intros Hl. unfold qstats_of, cumsum_cells.
  rewrite firstn_map, cumsum_cells_from_firstn, firstn_map, firstn_seq_le by exact Hl.
  reflexivity.
Qed.

(** X9: asking for more lags only appends: for [1 <= lags <= lags'], the
    Q-statistics of an entity computed with [lags] are the first [lags]
    of those computed with [lags']. *)
Theorem ljung_box_test_prefix (X : Panel) (lags lags' : nat) (e : entity) :
  In e (map fst (values X)) ->
  (1 <= lags <= lags')%nat ->
  exists qstats qstats',
    In (e, qstats) (ljung_box_test pl_corr pl_corr_kind X lags) /\
    In (e, qstats') (ljung_box_test pl_corr pl_corr_kind X lags') /\
    qstats = firstn lags qstats'.
Proof.
  intros He Hl. set (x := window e (values X)).
  exists (qstats_of pl_corr pl_corr_kind lags x), (qstats_of pl_corr pl_corr_kind lags' x).
  repeat split.
  - rewrite ljung_box_test_groups by lia.
    apply (in_map (fun g => (fst g, qstats_of pl_corr pl_corr_kind lags (snd g)))
             _ (e, x)).
    now apply groupby_has.
  - rewrite ljung_box_test_groups by lia.
    apply (in_map (fun g => (fst g, qstats_of pl_corr pl_corr_kind lags' (snd g)))
             _ (e, x)).
    now apply groupby_has.
  - apply qstats_of_prefix. lia.
Qed.

End MoreLjungBox.

Section MoreACF.

Variable pl_corr : list Q -> list (option Q) -> nat -> Q.
Variable pl_sqrt : Q -> Q.
Variable norm_ppf : Q -> Q.

(** The row of an entity in the result of [acf]. *)
Lemma acf_row_of_entity (X : Panel) (max_lags : nat) (alpha : Q) (e : entity) :
  In e (map fst (values X)) ->
  (1 <= max_lags)%nat ->
  let w := window e (values X) in
  let x := map (fun v => v - mean w) w in
  exists t,
    acf pl_corr pl_sqrt norm_ppf X max_lags alpha = Ok t /\
    In (e, acf_row pl_corr pl_sqrt (norm_ppf (1 - alpha / 2)) max_lags x) t.
Proof.
  intros He Hl w x. eexists. split; [now apply acf_groups|].
  apply (in_map (fun g => (fst g, acf_row pl_corr pl_sqrt (norm_ppf (1 - alpha / 2))
                                    max_lags (snd g))) _ (e, x)).
  unfold x, w. rewrite <- window_demean_over.
  apply groupby_has. now rewrite demean_over_keys.
Qed.

Lemma acf_row_lengths (ppf : Q) (max_lags : nat) (x : list Q) :
  (1 <= max_lags)%nat ->
  let row := acf_row pl_corr pl_sqrt ppf max_lags x in
  List.length (acf_values row) = S max_lags /\
  List.length (confint_lower row) = S max_lags /\
  List.length (confint_upper row) = S max_lags.
Proof.
  intros Hl row. unfold row, acf_row. cbn [acf_values confint_lower confint_upper].
  rewrite !length_map, length_combine, interval_column_length, acorr_length by exact Hl.
  repeat split; lia.
Qed.

Lemma acf_row_nth (ppf : Q) (max_lags k : nat) (x : list Q) (a i : Q) :
  nth_error (acorr pl_corr x max_lags) k = Some a ->
  nth_error (interval_column pl_sqrt ppf max_lags (acorr pl_corr x max_lags)
               (map (fun _ => len x) (acorr pl_corr x max_lags))) k = Some i ->
  let row := acf_row pl_corr pl_sqrt ppf max_lags x in
  nth_error (acf_values row) k = Some a /\
  nth_error (confint_lower row) k = Some (a - i) /\
  nth_error (confint_upper row) k = Some (a + i).
Proof.
  intros Ha Hi row. unfold row, acf_row. cbn [acf_values confint_lower confint_upper].
  rewrite !nth_error_map, (nth_error_combine _ _ _ _ _ Ha Hi). now rewrite Ha.
Qed.

(** X1: with at least one lag, [acf] returns exactly one row per entity of
    the panel, and in every row the autocorrelations and both confidence
    bounds have [max_lags + 1] elements (lags [0 .. max_lags]). *)
Theorem acf_shape (X : Panel) (max_lags : nat) (alpha : Q) :
  (1 <= max_lags)%nat ->
  exists t,
    acf pl_corr pl_sqrt norm_ppf X max_lags alpha = Ok t /\
    NoDup (map fst t) /\
    (forall e, In e (map fst t) <-> In e (map fst (values X))) /\
    (forall e row, In (e, row) t ->
       List.length (acf_values row) = S max_lags /\
       List.length (confint_lower row) = S max_lags /\
       List.length (confint_upper row) = S max_lags).
Proof.
  intros Hl. eexists. split; [now apply acf_groups|].
  rewrite map_map. cbn [fst]. split; [apply groupby_wf|]. split.
  - intros e. rewrite groupby_keys. now rewrite demean_over_keys.
  - intros e row Hin. apply in_map_iff in Hin. destruct Hin as [g [Heq _]].
    inversion Heq; subst. now apply acf_row_lengths.
Qed.

(** X2: at lag 0 the autocorrelation is the constant 1 and the band has no
    width: both confidence bounds equal 1, for every entity. *)
Theorem acf_lag0 (X : Panel) (max_lags : nat) (alpha : Q) (e : entity) :
  In e (map fst (values X)) ->
  (1 <= max_lags)%nat ->
  exists t row lo hi,
    acf pl_corr pl_sqrt norm_ppf X max_lags alpha = Ok t /\
    In (e, row) t /\
    nth_error (acf_values row) 0 = Some 1 /\
    nth_error (confint_lower row) 0 = Some lo /\
    nth_error (confint_upper row) 0 = Some hi /\
    lo == 1 /\ hi == 1.
Proof.
  intros He Hl.
  destruct (acf_row_of_entity X max_lags alpha e He Hl) as [t [Ht Hin]].
  exists t. eexists. exists (1 - 0), (1 + 0).
  split; [exact Ht|]. split; [exact Hin|].
  repeat split; try reflexivity; ring.
Qed.

(** X4: at every lag [k <= max_lags] the two confidence bounds lie
    symmetrically around the autocorrelation: [lower + upper == 2 * acf]. *)
Theorem acf_band_centred (X : Panel) (max_lags k : nat) (alpha : Q) (e : entity) :
  In e (map fst (values X)) ->
  (1 <= max_lags)%nat ->
  (k <= max_lags)%nat ->
  exists t row a lo hi,
    acf pl_corr pl_sqrt norm_ppf X max_lags alpha = Ok t /\
    In (e, row) t /\
    nth_error (acf_values row) k = Some a /\
    nth_error (confint_lower row) k = Some lo /\
    nth_error (confint_upper row) k = Some hi /\
    lo + hi == 2 * a.
Proof.
  intros He Hl Hk.
  destruct (acf_row_of_entity X max_lags alpha e He Hl) as [t [Ht Hin]].
  set (w := window e (values X)) in *.
  set (x := map (fun v => v - mean w) w) in *.
  set (ppf := norm_ppf (1 - alpha / 2)) in *.
  destruct (nth_error_in_range (acorr pl_corr x max_lags) k) as [a Ha].
  { rewrite acorr_length. lia. }
  destruct (nth_error_in_range
              (interval_column pl_sqrt ppf max_lags (acorr pl_corr x max_lags)
                 (map (fun _ => len x) (acorr pl_corr x max_lags))) k) as [i Hi].
  { rewrite interval_column_length by exact Hl. lia. }
  destruct (acf_row_nth ppf max_lags k x a i Ha Hi) as [H1 [H2 H3]].
  exists t, (acf_row pl_corr pl_sqrt ppf max_lags x), a, (a - i), (a + i).
  repeat split; trivial. ring.
Qed.

(** X3: at lag 1 the band is the baseline [ppf * sqrt (1 / n)] around the
    lag-1 autocorrelation of the demeaned series, where [n] is the number of
    rows of the entity in the panel and [ppf] the quantile at
    [1 - alpha / 2]. *)
Theorem acf_lag1_baseline (X : Panel) (max_lags : nat) (alpha : Q) (e : entity) :
  In e (map fst (values X)) ->
  (1 <= max_lags)%nat ->
  let w := window e (values X) in
  let x := map (fun v => v - mean w) w in
  let ppf := norm_ppf (1 - alpha / 2) in
  let r1 := pl_corr x (shift 1 x) 1 in
  exists t row,
    acf pl_corr pl_sqrt norm_ppf X max_lags alpha = Ok t /\
    In (e, row) t /\
    nth_error (acf_values row) 1 = Some r1 /\
    nth_error (confint_lower row) 1 = Some (r1 - ppf * pl_sqrt (1 / len w)) /\
    nth_error (confint_upper row) 1 = Some (r1 + ppf * pl_sqrt (1 / len w)).
Proof.
  intros He Hl w x ppf r1.
  destruct (acf_row_of_entity X max_lags alpha e He Hl) as [t [Ht Hin]].
  fold w in Hin. fold x in Hin. fold ppf in Hin.
  assert (Hn : len x = len w) by (unfold len, x; now rewrite length_map).
  assert (Ha : nth_error (acorr pl_corr x max_lags) 1 = Some r1) by (apply acorr_nth; lia).
  assert (Hi : nth_error (interval_column pl_sqrt ppf max_lags (acorr pl_corr x max_lags)
                 (map (fun _ => len x) (acorr pl_corr x max_lags))) 1 =
               Some (ppf * pl_sqrt (1 / len w))).
  { rewrite <- Hn. reflexivity. }
  destruct (acf_row_nth ppf max_lags 1 x _ _ Ha Hi) as [H1 [H2 H3]].
  exists t, (acf_row pl_corr pl_sqrt ppf max_lags x). repeat split; trivial.
Qed.

End MoreACF.

Lemma var_acf_firstn (a : list Q) (k : nat) :
  var_acf (firstn k a) = firstn k (var_acf a).
Proof.
  unfold var_acf, cumsum. now rewrite firstn_map, cumsum_from_firstn, firstn_map.
Qed.

Lemma interval_prefix_list {A : Type} (z i1 : A) (c : list A) (lags lags' : nat) :
  (1 <= lags <= lags')%nat ->
  z :: i1 :: slice 1 (lags - 1) (firstn (S lags) c) =
  firstn (S lags) (z :: i1 :: slice 1 (lags' - 1) c).
Proof.
  intros Hl. destruct lags as [|lags]; [lia|].
  change (firstn (S (S lags)) (z :: i1 :: slice 1 (lags' - 1) c))
    with (z :: i1 :: firstn lags (slice 1 (lags' - 1) c)).
  f_equal. f_equal. unfold slice.
  rewrite skipn_firstn_comm, !firstn_firstn. f_equal. lia.
Qed.

Section ACFPrefix.

Variable pl_corr : list Q -> list (option Q) -> nat -> Q.
Variable pl_sqrt : Q -> Q.
Variable norm_ppf : Q -> Q.

Lemma acorr_prefix (x : list Q) (lags lags' : nat) :
  (lags <= lags')%nat ->
  acorr pl_corr x lags = firstn (S lags) (acorr pl_corr x lags').
Proof.
  intros Hl. unfold acorr, acf_formula. cbn [fst firstn].
  now rewrite firstn_map, firstn_seq_le by exact Hl.
Qed.

Lemma interval_column_prefix (ppf : Q) (x : list Q) (lags lags' : nat) :
  (1 <= lags <= lags')%nat ->
  interval_column pl_sqrt ppf lags (acorr pl_corr x lags)
    (map (fun _ => len x) (acorr pl_corr x lags)) =
  firstn (S lags)
    (interval_column pl_sqrt ppf lags' (acorr pl_corr x lags')
       (map (fun _ => len x) (acorr pl_corr x lags'))).
Proof.
  intros Hl. unfold interval_column.
  rewrite !acf_confint_const.
  change (hd 0 (map (fun _ : Q => len x) (acorr pl_corr x lags))) with (len x).
  change (hd 0 (map (fun _ : Q => len x) (acorr pl_corr x lags'))) with (len x).
  rewrite (acorr_prefix x lags lags') by lia.
  rewrite var_acf_firstn, <- firstn_map.
  now apply interval_prefix_list.
Qed.

Lemma acf_row_prefix (ppf : Q) (x : list Q) (lags lags' : nat) :
  (1 <= lags <= lags')%nat ->
  let row := acf_row pl_corr pl_sqrt ppf lags x in
  let row' := acf_row pl_corr pl_sqrt ppf lags' x in
  acf_values row = firstn (S lags) (acf_values row') /\
  confint_lower row = firstn (S lags) (confint_lower row') /\
  confint_upper row = firstn (S lags) (confint_upper row').
Proof.
  intros Hl row row'. unfold row, row', acf_row.
  cbn [acf_values confint_lower confint_upper].
  rewrite !firstn_map, !combine_firstn.
  rewrite <- (interval_column_prefix ppf x lags lags') by exact Hl.
  rewrite <- (acorr_prefix x lags lags') by lia.
  repeat split; reflexivity.
Qed.

(** X6: asking for more lags only appends: for [1 <= lags <= lags'], the row
    of an entity computed with [lags] is the first [lags + 1] elements of
    its row computed with [lags'], for the autocorrelations and for both
    bounds. *)
Theorem acf_prefix (X : Panel) (lags lags' : nat) (alpha : Q) (e : entity) :
  In e (map fst (values X)) ->
  (1 <= lags <= lags')%nat ->
  exists t t' row row',
    acf pl_corr pl_sqrt norm_ppf X lags alpha = Ok t /\
    acf pl_corr pl_sqrt norm_ppf X lags' alpha = Ok t' /\
    In (e, row) t /\ In (e, row') t' /\
    acf_values row = firstn (S lags) (acf_values row') /\
    confint_lower row = firstn (S lags) (confint_lower row') /\
    confint_upper row = firstn (S lags) (confint_upper row').
Proof.
  intros He Hl.
  destruct (acf_row_of_entity pl_corr pl_sqrt norm_ppf X lags alpha e He ltac:(lia))
    as [t [Ht Hin]].
  destruct (acf_row_of_entity pl_corr pl_sqrt norm_ppf X lags' alpha e He ltac:(lia))
    as [t' [Ht' Hin']].
  exists t, t'. do 2 eexists.
  split; [exact Ht|]. split; [exact Ht'|]. split; [exact Hin|]. split; [exact Hin'|].
  now apply acf_row_prefix.
Qed.

End ACFPrefix.

Lemma mapM_inv {A B : Type} (f : A -> result B) (l : list A) (r : list B) :
  mapM f l = Ok r -> Forall2 (fun a b => f a = Ok b) l r.
Proof.
  revert r. induction l as [|a t IH]; simpl; intros r H.
  - inversion H. constructor.
  - destruct (f a) as [b|] eqn:Hf; simpl in H; [|discriminate].
    destruct (mapM f t) as [bs|] eqn:Hm; simpl in H; [|discriminate].
    inversion H; subst. constructor; auto.
Qed.

Lemma Sorted_Qorder (descending : bool) (l : list (entity * Q)) :
  Sorted (fun a b => Qorder descending (snd a) (snd b) = true) l ->
  Sorted (fun a b => if descending then snd b <= snd a else snd a <= snd b) l.
Proof.
  induction 1 as [|a l Hs IH Hhd]; constructor; [exact IH|].
  destruct Hhd as [|b l Hab]; constructor.
  unfold Qorder in Hab. destruct descending; now apply Qle_bool_iff.
Qed.

Section MoreRanking.

Variable pl_sqrt : Q -> Q.
Variable normaltest : list Q -> result Q.
Variables mae mape mse overforecast rmse underforecast : METRIC_TYPE.
Variables mase rmsse : Panel -> METRIC_TYPE.
Variable smape_score : Panel -> Panel -> Frame2.

(** X10: when [normality_test] returns a table, the table has the entity
    column and the value column of the panel and exactly one row per entity,
    holding the statistic of the primitive on the values of that entity. *)
Theorem normality_test_table (X : Panel) (f : Frame2) :
  normality_test normaltest (ObjFrame X) = Ok f ->
  key_col f = fst (fst (columns X)) /\
  val_col f = snd (columns X) /\
  NoDup (map fst (data f)) /\
  (forall e s, In (e, s) (data f) <->
               In e (map fst (values X)) /\ normaltest (window e (values X)) = Ok s).
Proof.
  intros H. destruct (normality_test_ok_rows normaltest X f H) as [e0 He0].
  rewrite (normality_test_groups normaltest X e0 He0) in H. clear e0 He0. revert H.
  destruct X as [[[ec tc] vc] rs]. cbn [columns fst snd].
  set (X := {| columns := (ec, tc, vc); rows := rs |}).
  destruct (mapM (fun g => s <- normaltest (snd g) ;; Ok (fst g, s)) (groupby (values X)))
    as [d|] eqn:Hm; simpl; [|discriminate].
  intros H. inversion H; subst. cbn [key_col val_col data]. clear H.
  apply mapM_inv in Hm.
  assert (Hrow : Forall2 (fun g p => fst p = fst g /\ normaltest (snd g) = Ok (snd p))
                   (groupby (values X)) d).
  { eapply Forall2_impl; [|exact Hm]. intros g p Hgp. cbn beta in Hgp.
    destruct (normaltest (snd g)) as [s|]; simpl in Hgp; [|discriminate].
    inversion Hgp; subst. now split. }
  clear Hm.
  assert (Hkeys : map fst d = map fst (groupby (values X))).
  { induction Hrow as [|g p gs ps [H1 _] _ IH]; simpl; congruence. }
  split; [reflexivity|]. split; [reflexivity|]. split.
  - rewrite Hkeys. apply groupby_wf.
  - intros e s. split.
    + intros Hin.
      assert (Hg : exists g, In g (groupby (values X)) /\ fst g = e /\
                             normaltest (snd g) = Ok s).
      { clear Hkeys. induction Hrow as [|g p gs ps [H1 H2] _ IH]; [contradiction|].
        destruct Hin as [->|Hin].
        - exists g. simpl in *. split; [now left|]. split; congruence.
        - destruct (IH Hin) as [g' [Hg' Hrest]]. exists g'. split; [now right|exact Hrest]. }
      destruct Hg as [[e' x] [Hg [He Hs]]]. simpl in He, Hs. subst e'.
      apply groupby_In in Hg. destruct Hg as [-> He]. now split.
    + intros [He Hs]. apply groupby_has in He.
      clear Hkeys. induction Hrow as [|g p gs ps [H1 H2] _ IH]; [contradiction|].
      destruct He as [->|He].
      * left. destruct p as [e' s']. simpl in *. congruence.
      * right. auto.
Qed.

(** X11: on a panel with at least one row, [normality_test] returns a table
    exactly when the primitive succeeds on the series of every entity of
    the panel. *)
Theorem normality_test_ok_iff (X : Panel) :
  rows X <> [] ->
  ((exists f, normality_test normaltest (ObjFrame X) = Ok f) <->
   (forall e, In e (map fst (values X)) ->
              exists s, normaltest (window e (values X)) = Ok s)).
Proof.
  intros Hne. split.
  - intros [f Hf] e He.
    destruct (normaltest (window e (values X))) as [s|err] eqn:Hs; [eauto|].
    exfalso. rewrite (normality_test_groups normaltest X e He) in Hf.
    destruct (mapM_err (fun g => s <- normaltest (snd g) ;; Ok (fst g, s))
                (groupby (values X)) (e, window e (values X)) err) as [err' Hm].
    + now apply groupby_has.
    + cbn [fst snd]. now rewrite Hs.
    + rewrite Hm in Hf. discriminate.
  - intros Hall. destruct (normality_test_all_ok normaltest X Hne Hall) as [f [Hf _]]. eauto.
Qed.

End MoreRanking.

Section MoreRanking2.

Variable pl_sqrt : Q -> Q.
Variable normaltest : list Q -> result Q.
Variables mae mape mse overforecast rmse underforecast : METRIC_TYPE.
Variables mase rmsse : Panel -> METRIC_TYPE.
Variable smape_score : Panel -> Panel -> Frame2.

(** X12: the criteria [bias] and [abs_bias] of [rank_residuals] rank by the
    same values: both return the same rows up to their order (one per
    entity, with non-negative values), each table sorted ascending by the
    value, under the column name of the criterion; [max_lags] and [alpha]
    have no effect.  Nothing is said of the order of entities with equal
    values. *)
Theorem rank_residuals_bias_alias (y_resids : Panel)
  (max_lags max_lags' : nat) (alpha alpha' : Q) :
  fst (fst (columns y_resids)) <> "bias" ->
  fst (fst (columns y_resids)) <> "abs_bias" ->
  exists d d',
    rank_residuals normaltest y_resids "bias" max_lags alpha =
      Ok (mkFrame2 (fst (fst (columns y_resids))) "bias" d) /\
    rank_residuals normaltest y_resids "abs_bias" max_lags' alpha' =
      Ok (mkFrame2 (fst (fst (columns y_resids))) "abs_bias" d') /\
    Permutation d d' /\
    Sorted (fun a b => snd a <= snd b) d /\
    Sorted (fun a b => snd a <= snd b) d' /\
    NoDup (map fst d) /\
    (forall e, In e (map fst d) <-> In e (map fst (values y_resids))) /\
    (forall e v, In (e, v) d -> 0 <= v).
Proof.
  intros H1 H2.
  assert (Hsorted : Sorted (fun a b : entity * Q => snd a <= snd b)
            (sort_rows (fun a b : entity * Q => Qorder false (snd a) (snd b))
               (map (fun g : entity * list Q => (fst g, Qabs (mean (snd g))))
                    (groupby (values y_resids))))).
  { apply Sorted_Qorder_asc.
    apply (sort_rows_sorted (fun a b : entity * Q => Qorder false (snd a) (snd b))).
    intros a b. apply Qorder_total. }
  eexists. eexists. split; [|split; [|split; [|split; [|split; [|split; [|split]]]]]].
  - apply rank_residuals_bias_value; [now left|exact H1].
  - apply rank_residuals_bias_value; [now right|exact H2].
  - reflexivity.
  - exact Hsorted.
  - exact Hsorted.
  - eapply Permutation_NoDup.
    + apply Permutation_map. apply sort_rows_perm.
    + rewrite map_map. cbn [fst]. apply groupby_wf.
  - intros e. rewrite <- (groupby_keys e (values y_resids)).
    assert (Hp : Permutation
              (map fst (map (fun g : entity * list Q => (fst g, Qabs (mean (snd g))))
                          (groupby (values y_resids))))
              (map fst (sort_rows (fun a b : entity * Q => Qorder false (snd a) (snd b))
                          (map (fun g : entity * list Q => (fst g, Qabs (mean (snd g))))
                             (groupby (values y_resids)))))).
    { apply Permutation_map. apply sort_rows_perm. }
    rewrite map_map in Hp. cbn [fst] in Hp.
    split; intros Hin.
    + eapply Permutation_in; [symmetry; exact Hp|exact Hin].
    + eapply Permutation_in; [exact Hp|exact Hin].
  - intros e v Hin.
    eapply Permutation_in in Hin; [|symmetry; apply sort_rows_perm].
    apply in_map_iff in Hin. destruct Hin as [g [Heq _]].
    assert (Hv0 : v = snd (fst g, Qabs (mean (snd g)))) by now rewrite Heq.
    rewrite Hv0. cbn [snd]. apply Qabs_nonneg.
Qed.

(** X13: with the criterion [normality], [rank_residuals] fails on every
    panel that has a row: the aggregation hands [normality_test] a series
    where it expects a frame. *)
Theorem rank_residuals_normality_unusable (y_resids : Panel) (max_lags : nat) (alpha : Q) :
  rows y_resids <> [] ->
  exists err, rank_residuals normaltest y_resids "normality" max_lags alpha = Err err.
Proof.
  intros Hne. eexists. now apply rank_residuals_normality_fails.
Qed.

(** X14: of the criteria of [_rank_entities], only [mean], [median] and
    [std] can give a ranking: [cv] is looked up in the table engine, which
    has no such function ([AttributeError]), and every other name, the
    accuracy metrics included, ends in calling the dict
    [SORT_BY_TO_METRIC(y_true)] as a function ([TypeError]). *)
Theorem rank_entities_unusable_criteria (y_pred y_true : Panel) (sort_by : string)
  (descending : bool) :
  ~ In sort_by ["mean"; "median"; "std"] ->
  _rank_entities pl_sqrt mae mape mse overforecast rmse underforecast mase rmsse
    smape_score y_pred y_true sort_by descending =
  Err (if String.eqb sort_by "cv" then AttributeError "cv"
       else TypeError "dict object is not callable").
Proof.
  intros Hs. simpl in Hs. unfold _rank_entities. cbn [existsb].
  destruct (String.eqb sort_by "mean") eqn:H1;
    [apply String.eqb_eq in H1; subst; tauto|].
  destruct (String.eqb sort_by "median") eqn:H2;
    [apply String.eqb_eq in H2; subst; tauto|].
  destruct (String.eqb sort_by "std") eqn:H3;
    [apply String.eqb_eq in H3; subst; tauto|].
  destruct (String.eqb sort_by "cv") eqn:H4.
  - apply String.eqb_eq in H4. subst.
    destruct y_true as [[[ec tc] vc] rs]. reflexivity.
  - reflexivity.
Qed.

(** X15: when the value column of the panel carries the name of the
    statistic ([mean], [median] or [std]), [_rank_entities_by_stat] returns
    one row per entity, holding the statistic of the values of the entity,
    sorted by it: ascending, or descending when [descending] is set. *)
Theorem rank_entities_by_stat_sorted (y_true : Panel) (sort_by : string)
  (descending : bool) (stat : list Q -> Q) :
  pl_getattr pl_sqrt sort_by = Ok stat ->
  snd (columns y_true) = sort_by ->
  fst (fst (columns y_true)) <> sort_by ->
  exists f,
    _rank_entities_by_stat pl_sqrt y_true sort_by descending = Ok f /\
    key_col f = fst (fst (columns y_true)) /\
    val_col f = sort_by /\
    Sorted (fun a b => if descending then snd b <= snd a else snd a <= snd b) (data f) /\
    NoDup (map fst (data f)) /\
    (forall e v, In (e, v) (data f) <->
                 In e (map fst (values y_true)) /\ v = stat (window e (values y_true))).
Proof.
  destruct y_true as [[[ec tc] vc] rs]. cbn [columns fst snd]. intros Hstat Hv He.
  set (X := {| columns := (ec, tc, vc); rows := rs |}).
  subst vc. apply String.eqb_neq in He.
  exists (mkFrame2 ec sort_by
            (sort_rows (fun a b => Qorder descending (snd a) (snd b))
               (map (fun g => (fst g, stat (snd g))) (groupby (values X))))).
  split; [|split; [reflexivity|split; [reflexivity|split; [|split]]]].
  - unfold _rank_entities_by_stat, X. cbn [columns]. rewrite Hstat. unfold bind at 1.
    unfold frame_sort. cbn [val_col key_col data]. rewrite String.eqb_refl.
    unfold bind. unfold frame_select. cbn [val_col]. now rewrite He, String.eqb_refl.
  - cbn [data]. apply Sorted_Qorder.
    apply (sort_rows_sorted (fun a b : entity * Q => Qorder descending (snd a) (snd b))).
    intros a b. apply Qorder_total.
  - cbn [data]. eapply Permutation_NoDup.
    + apply Permutation_map. apply sort_rows_perm.
    + rewrite map_map. cbn [fst]. apply groupby_wf.
  - cbn [data]. intros e v. split.
    + intros Hin. eapply Permutation_in in Hin; [|symmetry; apply sort_rows_perm].
      apply in_map_iff in Hin. destruct Hin as [[e' x] [Heq Hin]].
      cbn [fst snd] in Heq. inversion Heq; subst.
      apply groupby_In in Hin. destruct Hin as [-> Hin]. now split.
    + intros [Hin ->]. eapply Permutation_in; [apply sort_rows_perm|].
      apply (in_map (fun g => (fst g, stat (snd g))) _ (e, window e (values X))).
      now apply groupby_has.
Qed.

(** X16: when neither the value column nor the entity column carries the
    name of the statistic, [_rank_entities_by_stat] fails: the aggregate
    keeps the name of the value column and the sort finds no column named
    as the statistic. *)
Theorem rank_entities_by_stat_needs_column (y_true : Panel) (sort_by : string)
  (descending : bool) (stat : list Q -> Q) :
  pl_getattr pl_sqrt sort_by = Ok stat ->
  snd (columns y_true) <> sort_by ->
  fst (fst (columns y_true)) <> sort_by ->
  _rank_entities_by_stat pl_sqrt y_true sort_by descending =
  Err (ColumnNotFoundError sort_by).
Proof.
  destruct y_true as [[[ec tc] vc] rs]. cbn [columns fst snd]. intros Hstat Hv He.
  apply String.eqb_neq in Hv, He.
  rewrite String.eqb_sym in Hv. rewrite String.eqb_sym in He.
  unfold _rank_entities_by_stat. cbn [columns]. rewrite Hstat. unfold bind at 1.
  unfold frame_sort. cbn [val_col key_col]. now rewrite Hv, He.
Qed.

End MoreRanking2.

Lemma Qlt_bool_true (a b : Q) : Qlt_bool a b = true <-> a < b.
Proof.
  unfold Qlt_bool. rewrite negb_true_iff, <- not_true_iff_false, Qle_bool_iff.
  split; [apply Qnot_le_lt | apply Qlt_not_le].
Qed.


Lemma filter_key_In (r : list (entity * Q)) (e : entity) (b : Q) :
  In (e, b) r -> In (e, b) (filter (fun p => String.eqb (fst p) e) r).
Proof.
  intros Hin. apply filter_In. split; [exact Hin|]. apply String.eqb_refl.
Qed.

Lemma left_join_matched (l r : list (entity * Q)) (e : entity) (s b : Q) :
  In (e, s) l -> In (e, b) r -> In (e, s, Some b) (left_join l r).
Proof.
  intros Hl Hr. unfold left_join. apply in_flat_map. exists (e, s).
  split; [exact Hl|]. cbn [fst snd].
  pose proof (filter_key_In r e b Hr) as Hf.
  destruct (filter (fun p => String.eqb (fst p) e) r) as [|m ms] eqn:Hm; [contradiction|].
  apply (in_map (fun p : entity * Q => (e, s, Some (snd p))) _ (e, b)). exact Hf.
Qed.

Lemma left_join_unmatched (l r : list (entity * Q)) (e : entity) (s : Q) :
  In (e, s) l -> ~ In e (map fst r) -> In (e, s, None) (left_join l r).
Proof.
  intros Hl Hr. unfold left_join. apply in_flat_map. exists (e, s).
  split; [exact Hl|]. cbn [fst snd].
  rewrite filter_key_absent by exact Hr. now left.
Qed.

Lemma filter_key_cases (r : list (entity * Q)) (e : entity) :
  NoDup (map fst r) ->
  filter (fun p => String.eqb (fst p) e) r = [] \/
  exists b, filter (fun p => String.eqb (fst p) e) r = [(e, b)].
Proof.
  intros Hnd. destruct (in_dec string_dec e (map fst r)) as [Hin|Hout].
  - right. apply in_map_iff in Hin. destruct Hin as [[e' b] [He Hin]].
    simpl in He. subst e'. exists b.
    exact (filter_key_nodup r (e, b) Hnd Hin).
  - left. now apply filter_key_absent.
Qed.

(** With unique keys on the right, a left join keeps the rows of the left
    table, one for one. *)
Lemma left_join_keys (l r : list (entity * Q)) :
  NoDup (map fst r) ->
  map (fun x => fst (fst x)) (left_join l r) = map fst l.
Proof.
  intros Hnd. unfold left_join.
  induction l as [|a t IH]; [reflexivity|].
  cbn [flat_map]. rewrite map_app, IH. cbn [map].
  destruct (filter_key_cases r (fst a) Hnd) as [->|[b ->]]; reflexivity.
Qed.



Section MoreFVA.

Variable smape_score : Panel -> Panel -> Frame2.

(** [rank_fva] with a benchmark panel, when the metric succeeds on both
    prediction panels. *)
Lemma rank_fva_value (y_true y_pred y_pred_bench : Panel) (scoring : option METRIC_TYPE)
  (descending : bool) (scores scores_bench : Frame2) :
  (match scoring with Some f => f | None => smape smape_score end)
    y_true (ObjFrame y_pred) = Ok scores ->
  (match scoring with Some f => f | None => smape smape_score end)
    y_true (ObjFrame y_pred_bench) = Ok scores_bench ->
  rank_fva smape_score y_true y_pred (Some y_pred_bench) scoring descending =
  Ok (sort_rows (fun a b => null_order descending (uplift a) (uplift b))
        (map (fun r =>
                mkUpliftRow (fst (fst r))
                  (option_map (fun bench => bench - snd (fst r)) (snd r))
                  (option_map (fun bench => Qlt_bool 0 (bench - snd (fst r))) (snd r)))
             (left_join (data scores) (data scores_bench)))).
Proof. intros H1 H2. unfold rank_fva. rewrite H1, H2. reflexivity. Qed.

(** X17: for an entity scored [score] for the predictions and [bench] for
    the benchmark, [rank_fva] returns a row with [uplift = bench - score],
    and [has_uplift] is true exactly when [score < bench]. *)
Theorem rank_fva_uplift_row (y_true y_pred y_pred_bench : Panel)
  (scoring : option METRIC_TYPE) (descending : bool) (scores scores_bench : Frame2)
  (e : entity) (score bench : Q) :
  (match scoring with Some f => f | None => smape smape_score end)
    y_true (ObjFrame y_pred) = Ok scores ->
  (match scoring with Some f => f | None => smape smape_score end)
    y_true (ObjFrame y_pred_bench) = Ok scores_bench ->
  In (e, score) (data scores) ->
  In (e, bench) (data scores_bench) ->
  exists t r h,
    rank_fva smape_score y_true y_pred (Some y_pred_bench) scoring descending = Ok t /\
    In r t /\
    fva_entity r = e /\
    uplift r = Some (bench - score) /\
    has_uplift r = Some h /\
    (h = true <-> score < bench).
Proof.
  intros H1 H2 Hs Hb. eexists.
  exists (mkUpliftRow e (Some (bench - score)) (Some (Qlt_bool 0 (bench - score)))).
  exists (Qlt_bool 0 (bench - score)).
  split; [exact (rank_fva_value _ _ _ _ _ _ _ H1 H2)|].
  split; [|repeat split].
  - eapply Permutation_in; [apply sort_rows_perm|].
    apply (in_map (fun r => mkUpliftRow (fst (fst r))
                  (option_map (fun bench => bench - snd (fst r)) (snd r))
                  (option_map (fun bench => Qlt_bool 0 (bench - snd (fst r))) (snd r)))
             _ (e, score, Some bench)).
    now apply left_join_matched.
  - rewrite Qlt_bool_true. intros H. lra.
  - rewrite Qlt_bool_true. intros H. lra.
Qed.

(** X18: an entity that is scored for the predictions and has no score for
    the benchmark stays in the result of [rank_fva], with a null [uplift]
    and a null [has_uplift] (left join). *)
Theorem rank_fva_unmatched_entity (y_true y_pred y_pred_bench : Panel)
  (scoring : option METRIC_TYPE) (descending : bool) (scores scores_bench : Frame2)
  (e : entity) (score : Q) :
  (match scoring with Some f => f | None => smape smape_score end)
    y_true (ObjFrame y_pred) = Ok scores ->
  (match scoring with Some f => f | None => smape smape_score end)
    y_true (ObjFrame y_pred_bench) = Ok scores_bench ->
  In (e, score) (data scores) ->
  ~ In e (map fst (data scores_bench)) ->
  exists t,
    rank_fva smape_score y_true y_pred (Some y_pred_bench) scoring descending = Ok t /\
    In (mkUpliftRow e None None) t.
Proof.
  intros H1 H2 Hs Hb. eexists.
  split; [exact (rank_fva_value _ _ _ _ _ _ _ H1 H2)|].
  eapply Permutation_in; [apply sort_rows_perm|].
  apply (in_map (fun r => mkUpliftRow (fst (fst r))
                (option_map (fun bench => bench - snd (fst r)) (snd r))
                (option_map (fun bench => Qlt_bool 0 (bench - snd (fst r))) (snd r)))
           _ (e, score, None)).
  now apply left_join_unmatched.
Qed.

(** X19: when the benchmark scores have one row per entity, the result of
    [rank_fva] has exactly the entities scored for the predictions, one row
    each; entities scored only for the benchmark do not appear. *)
Theorem rank_fva_entities (y_true y_pred y_pred_bench : Panel)
  (scoring : option METRIC_TYPE) (descending : bool) (scores scores_bench : Frame2) :
  (match scoring with Some f => f | None => smape smape_score end)
    y_true (ObjFrame y_pred) = Ok scores ->
  (match scoring with Some f => f | None => smape smape_score end)
    y_true (ObjFrame y_pred_bench) = Ok scores_bench ->
  NoDup (map fst (data scores_bench)) ->
  exists t,
    rank_fva smape_score y_true y_pred (Some y_pred_bench) scoring descending = Ok t /\
    Permutation (map fva_entity t) (map fst (data scores)).
Proof.
  intros H1 H2 Hnd. eexists.
  split; [exact (rank_fva_value _ _ _ _ _ _ _ H1 H2)|].
  rewrite <- sort_rows_perm. rewrite map_map. cbn [fva_entity].
  now rewrite left_join_keys.
Qed.


End MoreFVA.

(** * The further properties on sample inputs *)

Lemma acf_shape_witness :
  exists t,
    acf corr_half sqrt_id ppf_two panel_a4 2 (1 # 20) = Ok t /\
    NoDup (map fst t) /\
    (forall e, In e (map fst t) <-> In e (map fst (values panel_a4))) /\
    (forall e row, In (e, row) t ->
       List.length (acf_values row) = 3%nat /\
       List.length (confint_lower row) = 3%nat /\
       List.length (confint_upper row) = 3%nat).
Proof.
  apply (acf_shape corr_half sqrt_id ppf_two panel_a4 2 (1 # 20)). lia.
Defined.

Lemma acf_lag0_witness :
  exists t row lo hi,
    acf corr_half sqrt_id ppf_two panel_a4 2 (1 # 20) = Ok t /\
    In ("A", row) t /\
    nth_error (acf_values row) 0 = Some 1 /\
    nth_error (confint_lower row) 0 = Some lo /\
    nth_error (confint_upper row) 0 = Some hi /\
    lo == 1 /\ hi == 1.
Proof.
  apply (acf_lag0 corr_half sqrt_id ppf_two panel_a4 2 (1 # 20) "A").
  - simpl. now left.
  - lia.
Defined.

Lemma acf_lag1_baseline_witness :
  let w := window "A" (values panel_a4) in
  let x := map (fun v => v - mean w) w in
  exists t row,
    acf corr_half sqrt_id ppf_two panel_a4 2 (1 # 20) = Ok t /\
    In ("A", row) t /\
    nth_error (acf_values row) 1 = Some (corr_half x (shift 1 x) 1) /\
    nth_error (confint_lower row) 1 =
      Some (corr_half x (shift 1 x) 1 - ppf_two (1 - (1 # 20) / 2) * sqrt_id (1 / len w)) /\
    nth_error (confint_upper row) 1 =
      Some (corr_half x (shift 1 x) 1 + ppf_two (1 - (1 # 20) / 2) * sqrt_id (1 / len w)).
Proof.
  apply (acf_lag1_baseline corr_half sqrt_id ppf_two panel_a4 2 (1 # 20) "A").
  - simpl. now left.
  - lia.
Defined.

Lemma acf_band_centred_witness :
  exists t row a lo hi,
    acf corr_half sqrt_id ppf_two panel_a4 2 (1 # 20) = Ok t /\
    In ("A", row) t /\
    nth_error (acf_values row) 2 = Some a /\
    nth_error (confint_lower row) 2 = Some lo /\
    nth_error (confint_upper row) 2 = Some hi /\
    lo + hi == 2 * a.
Proof.
  apply (acf_band_centred corr_half sqrt_id ppf_two panel_a4 2 2 (1 # 20) "A").
  - simpl. now left.
  - lia.
  - lia.
Defined.

Lemma acf_prefix_witness :
  exists t t' row row',
    acf corr_half sqrt_id ppf_two panel_a4 1 (1 # 20) = Ok t /\
    acf corr_half sqrt_id ppf_two panel_a4 3 (1 # 20) = Ok t' /\
    In ("A", row) t /\ In ("A", row') t' /\
    acf_values row = firstn 2 (acf_values row') /\
    confint_lower row = firstn 2 (confint_lower row') /\
    confint_upper row = firstn 2 (confint_upper row').
Proof.
  apply (acf_prefix corr_half sqrt_id ppf_two panel_a4 1 3 (1 # 20) "A").
  - simpl. now left.
  - lia.
Defined.

Lemma ljung_box_test_shape_witness :
  NoDup (map fst (ljung_box_test corr_half kind_pairs (panel_abc "y") 2)) /\
  (forall e, In e (map fst (ljung_box_test corr_half kind_pairs (panel_abc "y") 2)) <->
             In e (map fst (values (panel_abc "y")))) /\
  (forall e qstats,
     In (e, qstats) (ljung_box_test corr_half kind_pairs (panel_abc "y") 2) ->
     List.length qstats = 2%nat).
Proof.
  apply (ljung_box_test_shape corr_half kind_pairs (panel_abc "y") 2). lia.
Defined.

(** Lag depth 2 of the series of [panel_a4], whose autocorrelations of the
    lags 1 and 2 are numbers. *)
Lemma ljung_box_qstat_nonneg_witness :
  exists qstats q,
    In ("A", qstats) (ljung_box_test corr_half kind_pairs panel_a4 2) /\
    nth_error qstats 1 = Some (Num q) /\
    0 <= q.
Proof.
  apply (ljung_box_qstat_nonneg corr_half kind_pairs panel_a4 2 2 "A").
  - simpl. now left.
  - simpl. lia.
  - lia.
  - intros i Hi.
    assert (Hc : i = 1%nat \/ i = 2%nat) by lia.
    destruct Hc as [-> | ->]; reflexivity.
Defined.

Lemma ljung_box_test_prefix_witness :
  exists qstats qstats',
    In ("A", qstats) (ljung_box_test corr_half kind_pairs panel_a4 1) /\
    In ("A", qstats') (ljung_box_test corr_half kind_pairs panel_a4 3) /\
    qstats = firstn 1 qstats'.
Proof.
  apply (ljung_box_test_prefix corr_half kind_pairs panel_a4 1 3 "A").
  - simpl. now left.
  - lia.
Defined.

Lemma normality_test_table_witness :
  let f := mkFrame2 "entity" "value" [("A", 1 # 2)] in
  key_col f = "entity" /\
  val_col f = "value" /\
  NoDup (map fst (data f)) /\
  (forall e s, In (e, s) (data f) <->
               In e (map fst (values panel_a4)) /\
               normaltest_any (window e (values panel_a4)) = Ok s).
Proof.
  apply (normality_test_table normaltest_any panel_a4
           (mkFrame2 "entity" "value" [("A", 1 # 2)])).
  reflexivity.
Defined.

Lemma normality_test_ok_iff_witness :
  (exists f, normality_test normaltest_any (ObjFrame panel_a4) = Ok f) <->
  (forall e, In e (map fst (values panel_a4)) ->
             exists s, normaltest_any (window e (values panel_a4)) = Ok s).
Proof.
  apply (normality_test_ok_iff normaltest_any panel_a4).
  simpl. discriminate.
Defined.

Lemma rank_residuals_bias_alias_witness :
  exists d d',
    rank_residuals normaltest_8 panel_resid "bias" 12 (1 # 20) =
      Ok (mkFrame2 "entity" "bias" d) /\
    rank_residuals normaltest_8 panel_resid "abs_bias" 3 (1 # 10) =
      Ok (mkFrame2 "entity" "abs_bias" d') /\
    Permutation d d' /\
    Sorted (fun a b => snd a <= snd b) d /\
    Sorted (fun a b => snd a <= snd b) d' /\
    NoDup (map fst d) /\
    (forall e, In e (map fst d) <-> In e (map fst (values panel_resid))) /\
    (forall e v, In (e, v) d -> 0 <= v).
Proof.
  apply (rank_residuals_bias_alias normaltest_8 panel_resid 12 3 (1 # 20) (1 # 10)).
  - simpl. discriminate.
  - simpl. discriminate.
Defined.

Lemma rank_residuals_normality_unusable_witness :
  exists err, rank_residuals normaltest_any panel_resid "normality" 12 (1 # 20) = Err err.
Proof.
  apply (rank_residuals_normality_unusable normaltest_any panel_resid 12 (1 # 20)).
  simpl. discriminate.
Defined.

Lemma rank_entities_unusable_criteria_witness :
  _rank_entities sqrt_id metric_mean metric_mean metric_mean metric_mean metric_mean
    metric_mean (fun _ => metric_mean) (fun _ => metric_mean) score_half
    (panel_abc "y") (panel_abc "y") "smape" false =
  Err (TypeError "dict object is not callable").
Proof.
  apply (rank_entities_unusable_criteria sqrt_id metric_mean metric_mean metric_mean
           metric_mean metric_mean metric_mean (fun _ => metric_mean)
           (fun _ => metric_mean) score_half (panel_abc "y") (panel_abc "y") "smape" false).
  simpl. intuition discriminate.
Defined.

Lemma rank_entities_by_stat_sorted_witness :
  exists f,
    _rank_entities_by_stat sqrt_id (panel_abc "median") "median" true = Ok f /\
    key_col f = "entity" /\
    val_col f = "median" /\
    Sorted (fun a b => snd b <= snd a) (data f) /\
    NoDup (map fst (data f)) /\
    (forall e v, In (e, v) (data f) <->
                 In e (map fst (values (panel_abc "median"))) /\
                 v = median (window e (values (panel_abc "median")))).
Proof.
  apply (rank_entities_by_stat_sorted sqrt_id (panel_abc "median") "median" true median).
  - reflexivity.
  - reflexivity.
  - simpl. discriminate.
Defined.

Lemma rank_entities_by_stat_needs_column_witness :
  _rank_entities_by_stat sqrt_id (panel_abc "value") "mean" false =
  Err (ColumnNotFoundError "mean").
Proof.
  apply (rank_entities_by_stat_needs_column sqrt_id (panel_abc "value") "mean" false mean).
  - reflexivity.
  - simpl. discriminate.
  - simpl. discriminate.
Defined.

Lemma rank_fva_uplift_row_witness :
  exists t r h,
    rank_fva score_half (panel_abc "y") (panel_abc "y") (Some panel_bench)
      (Some metric_mean) false = Ok t /\
    In r t /\
    fva_entity r = "A" /\
    uplift r = Some (mean [6; 8] - mean [4; 6]) /\
    has_uplift r = Some h /\
    (h = true <-> mean [4; 6] < mean [6; 8]).
Proof.
  apply (rank_fva_uplift_row score_half (panel_abc "y") (panel_abc "y") panel_bench
           (Some metric_mean) false
           (mkFrame2 "entity" "score"
              (map (fun g => (fst g, mean (snd g))) (groupby (values (panel_abc "y")))))
           (mkFrame2 "entity" "score"
              (map (fun g => (fst g, mean (snd g))) (groupby (values panel_bench))))
           "A" (mean [4; 6]) (mean [6; 8])).
  - reflexivity.
  - reflexivity.
  - simpl. now left.
  - simpl. now left.
Defined.

Lemma rank_fva_unmatched_entity_witness :
  exists t,
    rank_fva score_half (panel_abc "y") (panel_abc "y") (Some panel_bench)
      (Some metric_mean) false = Ok t /\
    In (mkUpliftRow "C" None None) t.
Proof.
  apply (rank_fva_unmatched_entity score_half (panel_abc "y") (panel_abc "y") panel_bench
           (Some metric_mean) false
           (mkFrame2 "entity" "score"
              (map (fun g => (fst g, mean (snd g))) (groupby (values (panel_abc "y")))))
           (mkFrame2 "entity" "score"
              (map (fun g => (fst g, mean (snd g))) (groupby (values panel_bench))))
           "C" (mean [2; 4])).
  - reflexivity.
  - reflexivity.
  - simpl. right. right. now left.
  - simpl. intuition discriminate.
Defined.

Lemma rank_fva_entities_witness :
  exists t,
    rank_fva score_half (panel_abc "y") (panel_abc "y") (Some panel_bench)
      (Some metric_mean) true = Ok t /\
    Permutation (map fva_entity t) ["A"; "B"; "C"].
Proof.
  apply (rank_fva_entities score_half (panel_abc "y") (panel_abc "y") panel_bench
           (Some metric_mean) true
           (mkFrame2 "entity" "score"
              (map (fun g => (fst g, mean (snd g))) (groupby (values (panel_abc "y")))))
           (mkFrame2 "entity" "score"
              (map (fun g => (fst g, mean (snd g))) (groupby (values panel_bench))))).
  - reflexivity.
  - reflexivity.
  - simpl. repeat constructor; simpl; intuition discriminate.
Defined.

